(** * Agent identity and authorization pipeline: a shallow embedding

    The development follows the TypeScript sources of the repository:

    - [src/auth/verifyAssertion.ts]      (modules [VerifyAssertion] and
                                          [AccessTokenVerifier])
    - [src/auth/signAssertion.ts]        (module [SignAssertion])
    - [src/mastra/tools/tickets-tool.ts] (module [TicketsTool])
    - [src/mastra/agents/helpdesk-agent.ts] (module [HelpdeskAgent])

    The definitions come first; the properties follow in the modules
    [ReplayGuard], [Signer], [ScopePolicy], [IssuerPolicy],
    [Configuration] and [TokenCache].

    JavaScript values are modelled as the code uses them: strings as
    [string], numbers that hold timestamps as [Z], optional properties as
    [option], [Map<string, _>] and [process.env] as [gmap string _].
    A function that throws returns [inl] of the thrown error; module-level
    mutable state is threaded explicitly, and survives a throw. *)

From Stdlib Require Import ZArith Lia Ascii.
From Stdlib Require String.
From stdpp Require Import gmap strings list sorting.

Local Open Scope Z_scope.

(** ** JavaScript primitives used by the sources *)

Module JS.

(** Thrown values: [new Error(message)], and the [TypeError] the engine
    raises when a property of [undefined] is read. *)
Inductive exn : Type :=
  | Error (msg : string)
  | TypeError (msg : string).

Definition message (e : exn) : string :=
  match e with Error m => m | TypeError m => m end.

Global Instance exn_eq_dec : EqDecision exn.
Proof. solve_decision. Defined.

(** [s.startsWith(p)] *)
Definition startsWith (s p : string) : bool := String.prefix p s.

(** [s.includes(p)] *)
Fixpoint includes (s p : string) : bool :=
  match s with
  | EmptyString => String.prefix p EmptyString
  | String _ s' => String.prefix p s || includes s' p
  end.

(** [s.slice(n)] for [0 <= n] *)
Fixpoint slice (n : nat) (s : string) : string :=
  match n, s with
  | O, _ => s
  | S n', String _ s' => slice n' s'
  | S _, EmptyString => EmptyString
  end.

(** Whether a non-empty suffix of [p] is a prefix of [b]: an occurrence of
    [p] in [x ++ b] lies inside [x] or straddles the seam. *)
Fixpoint straddles (p b : string) : bool :=
  match p with
  | EmptyString => false
  | String _ p' => String.prefix p b || straddles p' b
  end.

(** Truthiness of an optional string property: [undefined] and the empty
    string are falsy. *)
Definition truthy_str (o : option string) : bool :=
  match o with
  | Some s => negb (String.eqb s "")
  | None => false
  end.

(** Truthiness of a number: [NaN] (here [None]) and [0] are falsy. *)
Definition truthy_num (o : option Z) : bool :=
  match o with
  | Some n => negb (n =? 0)
  | None => false
  end.

(** [a || b] on optional strings. *)
Definition or_str (a b : option string) : option string :=
  if truthy_str a then a else b.

(** [Array.prototype.join] *)
Fixpoint join (sep : string) (l : list string) : string :=
  match l with
  | [] => ""
  | [x] => x
  | x :: xs => x +:+ sep +:+ join sep xs
  end.

(** Computations over a mutable store [S] that may throw: the store after
    a throw is the store at the point of the throw. *)
Definition M (S A : Type) : Type := S → (exn + A) * S.

Definition ret {S A} (a : A) : M S A := λ s, (inr a, s).
Definition throw {S A} (e : exn) : M S A := λ s, (inl e, s).
Definition bind {S A B} (m : M S A) (k : A → M S B) : M S B :=
  λ s, match m s with
       | (inr a, s') => k a s'
       | (inl e, s') => (inl e, s')
       end.
(** [try { m } catch (error) { h error }] *)
Definition try_catch {S A} (m : M S A) (h : exn → M S A) : M S A :=
  λ s, match m s with
       | (inl e, s') => h e s'
       | r => r
       end.

End JS.

Import JS.

Notation "x <- m ;; k" := (bind m (λ x, k))
  (at level 100, m at next level, right associativity, only parsing).

(** ** Decoded tokens (jose's [JWTPayload] and protected header) *)

Module Jose.

Record JWTPayload : Type := mkPayload {
  iss : option string;
  sub : option string;
  exp : option Z;
  jti : option string;
  scopes : list string
}.

Record ProtectedHeader : Type := mkHeader {
  alg : string;
  kid : option string
}.

End Jose.

(** ** src/auth/verifyAssertion.ts *)

Module VerifyAssertion.
Import Jose.

Record Verified : Type := mkVerified {
  agentId : string;
  keyId : option string
}.

Global Instance Verified_eq_dec : EqDecision Verified.
Proof. solve_decision. Defined.

Section makeVerifier.
(** [jwtVerify(token, createRemoteJWKSet(jwksUrl), {audience})] of the
    jose library: key lookup, signature, audience and expiry checks.
    It either throws or yields the decoded payload and header. *)
Variable jwtVerify :
  string → string → string → exn + (JWTPayload * ProtectedHeader).

(** The function returned by [makeVerifier(jwksUrl, expectedAudience)];
    the store is the module-level [replayCache] (jti -> exp). *)
Definition makeVerifier (jwksUrl expectedAudience : string)
    (authorizationHeader : option string)
  : M (gmap string Z) Verified :=
  λ replayCache,
  match authorizationHeader with
  | None => (inl (Error "Missing bearer token"), replayCache)
  | Some h =>
    if negb (startsWith h "Bearer ") then
      (inl (Error "Missing bearer token"), replayCache)
    else
      let token := slice 7 h in
      match jwtVerify token jwksUrl expectedAudience with
      | inl e => (inl e, replayCache)
      | inr (payload, protectedHeader) =>
        if negb (truthy_str (iss payload))
           || negb (bool_decide (iss payload = sub payload)) then
          (inl (Error "Invalid iss/sub"), replayCache)
        else if negb (truthy_num (exp payload))
                || negb (truthy_str (jti payload)) then
          (inl (Error "Missing exp/jti"), replayCache)
        else
          match iss payload, exp payload, jti payload with
          | Some i, Some e, Some j =>
            match replayCache !! j with
            | Some _ => (inl (Error "Replay detected"), replayCache)
            | None =>
              (inr (mkVerified i (kid protectedHeader)),
               <[j := e]> replayCache)
            end
          | _, _, _ => (inl (Error "Missing exp/jti"), replayCache)
          end
      end
  end.

(** A header whose token passes the checks of lines 9-19: it has the
    bearer prefix, [jwtVerify] accepts the token, the payload is
    self-issued by [i], and carries the expiry [e] and the identifier [j];
    [k] is the [kid] of the protected header. *)
Definition presents (jwksUrl expectedAudience h i : string) (e : Z)
    (j : string) (k : option string) : Prop :=
  startsWith h "Bearer " = true ∧
  ∃ payload protectedHeader,
    jwtVerify (slice 7 h) jwksUrl expectedAudience
      = inr (payload, protectedHeader) ∧
    iss payload = Some i ∧ sub payload = Some i ∧ i ≠ "" ∧
    exp payload = Some e ∧ e ≠ 0 ∧
    jti payload = Some j ∧ j ≠ "" ∧
    kid protectedHeader = k.
End makeVerifier.

(** A key service that knows one token, ["tok"], a self-issued assertion
    of ["agent://demo/a1"] with identifier ["j1"] expiring at 300. *)
Definition demo_jwtVerify (token jwksUrl audience : string)
  : exn + (JWTPayload * ProtectedHeader) :=
  if String.eqb token "tok" then
    inr ({| iss := Some "agent://demo/a1"; sub := Some "agent://demo/a1";
            exp := Some 300; jti := Some "j1"; scopes := [] |},
         {| alg := "EdDSA"; kid := Some "k1" |})
  else inl (Error "signature verification failed").

(** The replay-guard contract as the specification words it:
    [record(jwtId, expiresAt)] returns false if the identifier is already
    present and not expired, else records it and returns true.  A record
    is expired at [now] when its [expiresAt] is not after [now]. *)
Definition record_expired (now expiresAt : Z) : bool := expiresAt <=? now.

Definition spec_record (now : Z) (jwtId : string) (expiresAt : Z)
    (table : gmap string Z) : bool * gmap string Z :=
  match table !! jwtId with
  | Some e =>
    if record_expired now e then (true, <[jwtId := expiresAt]> table)
    else (false, table)
  | None => (true, <[jwtId := expiresAt]> table)
  end.

End VerifyAssertion.

(** ** src/auth/signAssertion.ts *)

Module SignAssertion.

(** A JWK as the code reads it: the two properties it inspects, and the
    remaining key parameters. *)
Record Jwk : Type := mkJwk {
  kid : option string;
  agent_id : option string;
  params : string
}.

(** A parsed JSON document holding key material: the object seen as a
    JWK itself, and its [keys] property when that is an array. *)
Record JwkDocument : Type := mkDoc {
  keys : option (list Jwk);
  self : Jwk
}.

(** A [fetch] response. *)
Record Response : Type := mkResponse {
  ok : bool;
  statusText : string;
  json : exn + JwkDocument
}.

Record Opts : Type := mkOpts {
  privateJwkPath : string;
  audience : string;
  agentId : option string
}.

(** What [SignJWT] has been given when [sign] is called. *)
Record SignJWT : Type := mkSignJWT {
  header_alg : string;
  header_kid : string;
  claim_iss : string;
  claim_sub : string;
  claim_aud : string;
  claim_iat : Z;
  claim_exp : Z;
  claim_jti : string
}.

(** [clock] is what [Date.now()] returns (milliseconds); [uuid_calls]
    counts the calls made to [randomUUID] so far. *)
Record World : Type := mkWorld {
  clock : Z;
  uuid_calls : nat
}.

Section makeClientAssertion.
Context {CryptoKey : Type}.
(** [fetch(url)] *)
Variable fetch : string → exn + Response.
(** [JSON.parse(readFileSync(join(path), "utf8"))] *)
Variable readJwkFile : string → exn + JwkDocument.
(** [importJWK(priv, alg)] *)
Variable importJWK : Jwk → string → exn + CryptoKey.
(** [SignJWT.prototype.sign] *)
Variable sign : SignJWT → CryptoKey → exn + string.
(** The n-th identifier produced by [randomUUID()]. *)
Variable randomUUID : nat → string.

(** Lines 13-38: the key ([undefined] when [keys] is an empty array)
    and the agent identifier the rest of the function works with. *)
Definition loadKey (o : Opts) : exn + (option Jwk * option string) :=
  let path := privateJwkPath o in
  if startsWith path "http://" || startsWith path "https://" then
    match fetch path with
    | inl e => inl e
    | inr response =>
      if negb (ok response) then
        inl (Error ("Failed to fetch JWK from " +:+ path +:+ ": "
                    +:+ statusText response))
      else
        match json response with
        | inl e => inl e
        | inr data =>
          let priv :=
            match keys data with
            | Some ks => head ks
            | None => Some (self data)
            end in
          if truthy_str (agentId o) then inr (priv, agentId o)
          else
            match priv with
            | Some p => inr (priv, agent_id p)
            | None =>
              inl (TypeError
                "Cannot read properties of undefined (reading 'agent_id')")
            end
        end
    end
  else
    match readJwkFile path with
    | inl e => inl e
    | inr data => inr (Some (self data), agent_id (self data))
    end.

Definition makeClientAssertion (o : Opts) : M World string :=
  λ w,
  match loadKey o with
  | inl e => (inl e, w)
  | inr (None, _) =>
    (inl (TypeError
       "Cannot destructure property 'kid' of 'priv' as it is undefined."),
     w)
  | inr (Some priv, agent_id) =>
    if negb (truthy_str (kid priv)) then
      (inl (Error "Private JWK missing kid"), w)
    else if negb (truthy_str agent_id) then
      (inl (Error "Agent ID not provided and not found in JWK"), w)
    else
      match importJWK priv "EdDSA" with
      | inl e => (inl e, w)
      | inr key =>
        let now := clock w `div` 1000 in
        let jwt :=
          {| header_alg := "EdDSA";
             header_kid := default "" (kid priv);
             claim_iss := default "" agent_id;
             claim_sub := default "" agent_id;
             claim_aud := audience o;
             claim_iat := now;
             claim_exp := now + 60;
             claim_jti := randomUUID (uuid_calls w) |} in
        (sign jwt key,
         {| clock := clock w; uuid_calls := S (uuid_calls w) |})
      end
  end.
End makeClientAssertion.

(** A file system with one key file, and stub cryptography: the imported
    key is the JWK's parameters and the signature lists the claims. *)
Definition demo_readJwkFile (path : string) : exn + JwkDocument :=
  if String.eqb path "secrets/a1.private.jwk.json" then
    inr {| keys := None;
           self := {| kid := Some "a1-ed25519";
                      agent_id := Some "agent://worf";
                      params := "d=..." |} |}
  else inl (Error "ENOENT: no such file or directory").

Definition demo_fetch (url : string) : exn + Response :=
  inl (TypeError "fetch failed").

Definition demo_importJWK (priv : Jwk) (alg : string) : exn + string :=
  inr (params priv).

Definition demo_sign (jwt : SignJWT) (key : string) : exn + string :=
  inr (claim_iss jwt +:+ "|" +:+ claim_jti jwt).

Definition demo_randomUUID (n : nat) : string :=
  match n with
  | O => "3f2c0c5e-0000-4000-8000-000000000000"
  | _ => "3f2c0c5e-0000-4000-8000-000000000001"
  end.

Definition demo_opts : Opts :=
  {| privateJwkPath := "secrets/a1.private.jwk.json";
     audience := "https://tools.local/tickets";
     agentId := Some "agent://other" |}.

(** A key file without [kid] and without [agent_id]. *)
Definition bare_readJwkFile (path : string) : exn + JwkDocument :=
  inr {| keys := None;
         self := {| kid := None; agent_id := None; params := "d=..." |} |}.

(** A key file with a [kid] but without [agent_id]. *)
Definition anonymous_readJwkFile (path : string) : exn + JwkDocument :=
  inr {| keys := None;
         self := {| kid := Some "a1-ed25519"; agent_id := None;
                    params := "d=..." |} |}.

End SignAssertion.

(** ** The access-token verifier imported by the tools *)

Module AccessTokenVerifier.

(** What [verifyAccessToken] resolves to: the tools read [agentId] and
    [scopes] from it. *)
Record AccessInfo : Type := mkAccessInfo {
  agentId : string;
  scopes : list string
}.

Global Instance AccessInfo_eq_dec : EqDecision AccessInfo.
Proof. solve_decision. Defined.

Section makeAccessTokenVerifier.
Variable jwtVerify :
  string → string → string → exn + (Jose.JWTPayload * Jose.ProtectedHeader).
(** The identity of the trusted Token Service. *)
Variable tokenServiceIssuer : string.

(** Modelled from the spec: [makeAccessTokenVerifier] is imported by
    the tools from src/auth/verifyAssertion.ts but its body is not part
    of the sources.  Section 4.5: same header parsing and
    signature/audience checks as the assertion verifier; the issuer
    must be the Token Service's identity (the tools recognise that
    failure by the text "Invalid issuer"); the replay guard of section
    4.6 is consulted, a record being reusable once expired; the
    subject is the agent and the decoded scope list is returned. *)
Definition makeAccessTokenVerifier (jwksUrl expectedAudience : string)
    (now : Z) (authorizationHeader : string)
  : M (gmap string Z) AccessInfo :=
  λ replayTable,
  if negb (startsWith authorizationHeader "Bearer ") then
    (inl (Error "Missing bearer token"), replayTable)
  else
    let token := slice 7 authorizationHeader in
    match jwtVerify token jwksUrl expectedAudience with
    | inl e => (inl e, replayTable)
    | inr (payload, _) =>
      if negb (bool_decide (Jose.iss payload = Some tokenServiceIssuer))
      then (inl (Error "Invalid issuer"), replayTable)
      else
        match Jose.exp payload, Jose.jti payload with
        | Some e, Some j =>
          match VerifyAssertion.spec_record now j e replayTable with
          | (false, t) => (inl (Error "Replay detected"), t)
          | (true, t) =>
            (inr {| agentId := default "" (Jose.sub payload);
                    scopes := Jose.scopes payload |}, t)
          end
        | _, _ => (inl (Error "Missing exp/jti"), replayTable)
        end
    end.
End makeAccessTokenVerifier.

End AccessTokenVerifier.

(** ** src/mastra/tools/tickets-tool.ts *)

Module TicketsTool.
Import AccessTokenVerifier.

(** [process.env.X ?? d]: only an absent variable takes the default. *)
Definition env_or (env : gmap string string) (x d : string) : string :=
  default d (env !! x).

(** The arguments of [makeAccessTokenVerifier] at module load. *)
Definition verifyAccessToken_config (env : gmap string string)
  : string * string :=
  (env_or env "TOKEN_SERVICE_JWKS_URL"
     "http://localhost:8787/.well-known/jwks.json",
   env_or env "TICKETS_AUD" "https://tools.local/tickets").

(** The arguments of [makeVerifier] at module load ([verifyDirectJWT],
    and [verify] in the earlier revision of the file). *)
Definition verifyDirectJWT_config (env : gmap string string)
  : string * string :=
  (env_or env "JWKS_URL" "http://localhost:8787/.well-known/jwks.json",
   env_or env "TICKETS_AUD" "https://tools.local/tickets").

(** [scopes.includes(required)] *)
Definition hasRequiredScope (scopes : list string) (required : string)
  : bool :=
  bool_decide (required ∈ scopes).

(** Calls that reach the business logic, in order. *)
Inductive BusinessCall : Type :=
  | GetTickets (agentId statusFilter : string)
  | CreateTicket (title : string) (description : option string)
      (agentId : string).

Section tools.
(** The store of the access-token verifier, and the verifier built at
    module load. *)
Context {V : Type}.
Variable verifyAccessToken : string → M V AccessInfo.
(** The stub business logic: what [getTickets] and [createTicket]
    return. *)
Context {TicketList NewTicket : Type}.
Variable ticketsOf : string → string → TicketList.
Variable ticketFor : string → option string → string → NewTicket.

Definition verifyToken (authHeader requiredScope : string)
  : M V AccessInfo :=
  try_catch
    (result <- verifyAccessToken authHeader ;;
     if negb (hasRequiredScope (scopes result) requiredScope) then
       throw (Error ("Insufficient permissions: " +:+ requiredScope
                     +:+ " scope required"))
     else
       ret {| agentId := agentId result; scopes := scopes result |})
    (λ error,
       if includes (message error) "Invalid issuer" then
         throw (Error
           "Token service required - direct JWT not accepted for security")
       else throw error).

Record ToolStore : Type := mkToolStore {
  verifier : V;
  executed : list BusinessCall
}.

Definition withVerifier {A} (m : M V A) : M ToolStore A :=
  λ s, let '(r, v) := m (verifier s) in
       (r, {| verifier := v; executed := executed s |}).

Definition getTickets (agentId statusFilter : string)
  : M ToolStore TicketList :=
  λ s, (inr (ticketsOf agentId statusFilter),
        {| verifier := verifier s;
           executed := executed s ++ [GetTickets agentId statusFilter] |}).

Definition createTicket (title : string) (description : option string)
    (agentId : string) : M ToolStore NewTicket :=
  λ s, (inr (ticketFor title description agentId),
        {| verifier := verifier s;
           executed :=
             executed s ++ [CreateTicket title description agentId] |}).

(** [ticketsTool.execute] *)
Definition ticketsTool (authToken status : string)
  : M ToolStore TicketList :=
  try_catch
    (r <- withVerifier
            (verifyToken ("Bearer " +:+ authToken) "tickets.read") ;;
     getTickets (agentId r) status)
    (λ error,
       throw (Error ("Authentication failed: " +:+ message error))).

(** [createTicketTool.execute] *)
Definition createTicketTool (authToken title : string)
    (description : option string) : M ToolStore NewTicket :=
  try_catch
    (r <- withVerifier
            (verifyToken ("Bearer " +:+ authToken) "tickets.write") ;;
     createTicket title description (agentId r))
    (λ error,
       throw (Error ("Authentication failed: " +:+ message error))).
End tools.

(** A verifier that accepts every header as a token of ["agent://worf"]
    limited to ["tickets.read"]. *)
Definition demo_verifyAccessToken (authHeader : string)
  : M unit AccessInfo :=
  ret {| agentId := "agent://worf"; scopes := ["tickets.read"] |}.

End TicketsTool.

(** ** src/mastra/agents/helpdesk-agent.ts *)

Module HelpdeskAgent.

(** [Array.prototype.sort()] without a comparator orders strings by
    their code units; scope names are modelled as byte strings.  The
    order is total and antisymmetric, so the sorted array does not
    depend on the sorting algorithm. *)
Definition str_le (a b : string) : Prop := String.leb a b = true.

Global Instance str_le_dec (a b : string) : Decision (str_le a b).
Proof. unfold str_le. apply _. Defined.

Definition sort (l : list string) : list string := merge_sort str_le l.

(** Line 48 (299): the cache key.  [scopes.sort()] sorts the caller's
    array in place, so the sorted array is also what the rest of the
    function passes on as [scopes]. *)
Definition cacheKey (targetAudience : string) (scopes : list string)
  : string :=
  targetAudience +:+ ":" +:+ join "," (sort scopes).

(** [s.split(".")] *)
Fixpoint split_dot (s : string) : list string :=
  match s with
  | EmptyString => [""]
  | String c s' =>
    if Ascii.eqb c "."%char then "" :: split_dot s'
    else
      match split_dot s' with
      | [] => [String c ""]
      | p :: ps => String c p :: ps
      end
  end.

(** An entry of the module-level [tokenCache]. *)
Record CacheEntry : Type := mkEntry {
  token : string;
  expires : Z
}.

(** The argument object of [exchangeForAccessToken]. *)
Record ExchangeArgs : Type := mkArgs {
  privateJwkPath : string;
  agentId : string;
  tokenServiceUrl : string;
  targetAudience : string;
  scopes : list string
}.

(** The three values read from [process.env]. *)
Record Config : Type := mkConfig {
  cfg_privateJwkPath : string;
  cfg_agentId : string;
  cfg_tokenServiceUrl : string
}.

(** [clock] is what [Date.now()] returns; [exchangeLog] lists the calls
    made to [exchangeForAccessToken] with their outcomes, oldest first. *)
Record World : Type := mkWorld {
  clock : Z;
  tokenCache : gmap string CacheEntry;
  exchangeLog : list (ExchangeArgs * (exn + string))
}.

(** [process.env.X || d]: an absent or empty variable takes the
    default. *)
Definition env_or_else (env : gmap string string) (x d : string)
  : string :=
  match env !! x with
  | Some v => if String.eqb v "" then d else v
  | None => d
  end.

(** First revision of [getAccessToken], lines 32-37. *)
Definition config_defaults (env : gmap string string) : Config :=
  {| cfg_privateJwkPath :=
       env_or_else env "HELPDESK_PRIVATE_JWK_PATH"
         "/home/brucec/techplay2/sandbox/auth-template-hackathon-v0/secrets/a1-ed25519-2025-08-15-d0a5e088.private.jwk.json";
     cfg_agentId := env_or_else env "HELPDESK_AGENT_ID" "agent://demo/a1";
     cfg_tokenServiceUrl :=
       env_or_else env "TOKEN_SERVICE_URL" "http://localhost:8787" |}.

(** Last revision of [getAccessToken], lines 274-288. *)
Definition config_required (env : gmap string string) : exn + Config :=
  let privateJwkPath := env !! "HELPDESK_PRIVATE_JWK_PATH" in
  let agentId := env !! "HELPDESK_AGENT_ID" in
  let tokenServiceUrl := env !! "TOKEN_SERVICE_URL" in
  if negb (truthy_str privateJwkPath) then
    inl (Error "HELPDESK_PRIVATE_JWK_PATH environment variable is required")
  else if negb (truthy_str agentId) then
    inl (Error "HELPDESK_AGENT_ID environment variable is required")
  else if negb (truthy_str tokenServiceUrl) then
    inl (Error "TOKEN_SERVICE_URL environment variable is required")
  else
    inr {| cfg_privateJwkPath := default "" privateJwkPath;
           cfg_agentId := default "" agentId;
           cfg_tokenServiceUrl := default "" tokenServiceUrl |}.

Section getAccessToken.
(** [JSON.parse(Buffer.from(segment, "base64url").toString())], [None]
    when it throws. *)
Variable parseSegment : string → option Jose.JWTPayload.
(** [exchangeForAccessToken(args)] called when [Date.now()] is the
    second argument: its outcome, and [Date.now()] once it settles. *)
Variable exchangeForAccessToken :
  ExchangeArgs → Z → (exn + string) * Z.

Definition decodeJWTPayload (token : string)
  : option Jose.JWTPayload :=
  match split_dot token !! 1%nat with
  | Some segment => parseSegment segment
  | None => None
  end.

(** [payload?.exp * 1000], [None] standing for [NaN]. *)
Definition tokenExpMs (token : string) : option Z :=
  e ← decodeJWTPayload token ≫= Jose.exp; Some (e * 1000).

(** Lines 50-65 (298-316 in the last revision): the cached token when
    it is served, else the cache the function goes on with. *)
Definition lookupCache (cacheKey : string) (w : World)
  : string + gmap string CacheEntry :=
  match tokenCache w !! cacheKey with
  | Some cached =>
    if clock w <? expires cached then
      let tokenExp := tokenExpMs (token cached) in
      if truthy_num tokenExp
         && bool_decide (default 0 tokenExp > clock w + 30 * 1000) then
        inl (token cached)
      else inr (delete cacheKey (tokenCache w))
    else inr (tokenCache w)
  | None => inr (tokenCache w)
  end.

(** The hit rule of [lookupCache]: an entry under the key, not past its
    [expires], whose token decodes to a non-zero expiry more than 30
    seconds ahead. *)
Definition usable (cacheKey : string) (w : World) : Prop :=
  ∃ cached e,
    tokenCache w !! cacheKey = Some cached ∧
    clock w < expires cached ∧
    tokenExpMs (token cached) = Some e ∧ e ≠ 0 ∧
    e > clock w + 30 * 1000.

(** Lines 70-76 (321-327): the argument of the exchange; [scopes] is the
    array sorted at line 48. *)
Definition exchangeArgs (cfg : Config) (targetAudience : string)
    (scopes : list string) : ExchangeArgs :=
  {| privateJwkPath := cfg_privateJwkPath cfg;
     agentId := cfg_agentId cfg;
     tokenServiceUrl := cfg_tokenServiceUrl cfg;
     targetAudience := targetAudience;
     scopes := sort scopes |}.

(** The body shared by the revisions of [getAccessToken], after the
    configuration has been read. *)
Definition getAccessTokenWith (cfg : Config) (targetAudience : string)
    (scopes : list string) : M World string :=
  λ w,
  let cacheKey := cacheKey targetAudience scopes in
  match lookupCache cacheKey w with
  | inl cachedToken => (inr cachedToken, w)
  | inr cache =>
    let args := exchangeArgs cfg targetAudience scopes in
    match exchangeForAccessToken args (clock w) with
    | (inl e, t) =>
      (inl e,
       {| clock := t; tokenCache := cache;
          exchangeLog := exchangeLog w ++ [(args, inl e)] |})
    | (inr accessToken, t) =>
      let tokenExp := tokenExpMs accessToken in
      let cacheUntil :=
        if truthy_num tokenExp
        then (default 0 tokenExp - 60 * 1000) `min` (t + 4 * 60 * 1000)
        else t + 4 * 60 * 1000 in
      (inr accessToken,
       {| clock := t;
          tokenCache :=
            <[cacheKey := {| token := accessToken;
                             expires := cacheUntil |}]> cache;
          exchangeLog := exchangeLog w ++ [(args, inr accessToken)] |})
    end
  end.

(** First revision (lines 27-96): defaults for the configuration. *)
Definition getAccessToken_defaults (env : gmap string string)
    (targetAudience : string) (scopes : list string) : M World string :=
  getAccessTokenWith (config_defaults env) targetAudience scopes.

(** Last revision (lines 269-347): the configuration is required. *)
Definition getAccessToken (env : gmap string string)
    (targetAudience : string) (scopes : list string) : M World string :=
  match config_required env with
  | inl e => throw e
  | inr cfg => getAccessTokenWith cfg targetAudience scopes
  end.
End getAccessToken.

(** Whether character [c] occurs in [s]. *)
Fixpoint has_char (c : ascii) (s : string) : bool :=
  match s with
  | EmptyString => false
  | String d s' => Ascii.eqb c d || has_char c s'
  end.

(** Scope names that the cache key keeps apart: not empty, and free of the
    two separators the key is built with. *)
Definition plain (s : string) : Prop :=
  s ≠ "" ∧ has_char "," s = false ∧ has_char ":" s = false.

(** Every cached token was obtained by a logged exchange whose audience
    and (plain) scopes give the key it is stored under. *)
Definition cache_inv (w : World) : Prop :=
  ∀ k c, tokenCache w !! k = Some c →
    ∃ args, (args, inr (token c)) ∈ exchangeLog w ∧
            Forall plain (scopes args) ∧
            targetAudience args +:+ ":" +:+ join "," (scopes args) = k.

(** Tokens whose middle segment names their expiry in seconds. *)
Definition demo_parseSegment (segment : string) : option Jose.JWTPayload :=
  let payload e :=
    Some {| Jose.iss := Some "https://token-service.local";
            Jose.sub := Some "agent://worf"; Jose.exp := Some e;
            Jose.jti := Some "t1"; Jose.scopes := [] |} in
  if String.eqb segment "exp130" then payload 130
  else if String.eqb segment "exp900" then payload 900
  else None.

(** A Token Service that answers after 5 ms with a token expiring at
    900 s. *)
Definition demo_exchange (args : ExchangeArgs) (now : Z)
  : (exn + string) * Z :=
  (inr "hdr.exp900.sig", now + 5).

(** A Token Service whose tokens end with the scopes they were
    requested for. *)
Definition scoped_exchange (args : ExchangeArgs) (now : Z)
  : (exn + string) * Z :=
  (inr ("hdr.exp900." +:+ join "+" (scopes args)), now + 5).

(** A Token Service that cannot be reached. *)
Definition down_exchange (args : ExchangeArgs) (now : Z)
  : (exn + string) * Z :=
  (inl (Error "fetch failed"), now + 5).

Definition demo_config : Config :=
  {| cfg_privateJwkPath := "secrets/a1.private.jwk.json";
     cfg_agentId := "agent://worf";
     cfg_tokenServiceUrl := "http://localhost:8787" |}.

Definition demo_env : gmap string string :=
  {[ "HELPDESK_PRIVATE_JWK_PATH" := "secrets/a1.private.jwk.json";
     "HELPDESK_AGENT_ID" := "agent://worf" ]}.

End HelpdeskAgent.


(** ** Successive calls of the assertion verifier *)

Module VerifierRuns.
Import Jose VerifyAssertion.

Section runs.
Variable jwtVerify :
  string → string → string → exn + (JWTPayload * ProtectedHeader).
Variables jwksUrl expectedAudience : string.

(** The verifier called on each header in turn; every call sees the
    module-level [replayCache] as the calls before it left it.  The
    outcomes are listed in order, with the final cache. *)
Fixpoint verifyAll (headers : list (option string))
    (replayCache : gmap string Z)
  : list (exn + Verified) * gmap string Z :=
  match headers with
  | [] => ([], replayCache)
  | h :: rest =>
    let '(r, cache) :=
      makeVerifier jwtVerify jwksUrl expectedAudience h replayCache in
    let '(rs, final) := verifyAll rest cache in
    (r :: rs, final)
  end.
End runs.

End VerifierRuns.

(** ** What a signed assertion decodes to *)

Module SignedClaims.
Import SignAssertion.

(** Lines 45-54 of signAssertion.ts: the claim set built for key [priv]
    and agent [agent_id] in world [w]. *)
Definition claimsFor (randomUUID : nat → string) (priv : Jwk)
    (agent_id audience : string) (w : World) : SignJWT :=
  let now := clock w `div` 1000 in
  {| header_alg := "EdDSA";
     header_kid := default "" (kid priv);
     claim_iss := agent_id;
     claim_sub := agent_id;
     claim_aud := audience;
     claim_iat := now;
     claim_exp := now + 60;
     claim_jti := randomUUID (uuid_calls w) |}.

(** The payload and protected header a verifier decodes from a token
    signed over [jwt]. *)
Definition payloadOf (jwt : SignJWT) : Jose.JWTPayload :=
  {| Jose.iss := Some (claim_iss jwt); Jose.sub := Some (claim_sub jwt);
     Jose.exp := Some (claim_exp jwt); Jose.jti := Some (claim_jti jwt);
     Jose.scopes := [] |}.

Definition headerOf (jwt : SignJWT) : Jose.ProtectedHeader :=
  {| Jose.alg := header_alg jwt; Jose.kid := Some (header_kid jwt) |}.

(** A key service that recognises exactly the token [s] as signed over
    [jwt] for [audience]. *)
Definition echo_jwtVerify (s : string) (jwt : SignJWT)
    (token jwksUrl audience : string)
  : exn + (Jose.JWTPayload * Jose.ProtectedHeader) :=
  if String.eqb token s && String.eqb audience (claim_aud jwt)
  then inr (payloadOf jwt, headerOf jwt)
  else inl (Error "signature verification failed").

(** A key endpoint serving a JWKS with two keys. *)
Definition jwks_fetch (url : string) : exn + Response :=
  inr {| ok := true; statusText := "OK";
         json := inr {| keys := Some [ {| kid := Some "k-first";
                                           agent_id := Some "agent://first";
                                           params := "d=1" |};
                                        {| kid := Some "k-second";
                                           agent_id := Some "agent://second";
                                           params := "d=2" |} ];
                        self := {| kid := None; agent_id := None;
                                   params := "" |} |} |}.

(** A key endpoint serving an empty JWKS. *)
Definition empty_jwks_fetch (url : string) : exn + Response :=
  inr {| ok := true; statusText := "OK";
         json := inr {| keys := Some [];
                        self := {| kid := None; agent_id := None;
                                   params := "" |} |} |}.

(** Identifiers that differ from call to call: the n-th one is n zeros
    followed by ["u"]. *)
Fixpoint counting_randomUUID (n : nat) : string :=
  match n with
  | O => "u"
  | S n' => String "0" (counting_randomUUID n')
  end.

(** A JWK Set document whose first key is complete; the set object itself
    has neither [kid] nor [agent_id]. *)
Definition key_set : JwkDocument :=
  {| keys := Some [ {| kid := Some "k-first";
                       agent_id := Some "agent://first";
                       params := "d=1" |} ];
     self := {| kid := None; agent_id := None; params := "" |} |}.

(** The same document on disk and behind a URL. *)
Definition key_set_file (path : string) : exn + JwkDocument := inr key_set.

Definition key_set_fetch (url : string) : exn + Response :=
  inr {| ok := true; statusText := "OK"; json := inr key_set |}.

Definition url_opts : Opts :=
  {| privateJwkPath := "http://localhost:8787/.well-known/jwks.json";
     audience := "https://tools.local/tickets";
     agentId := Some "agent://override" |}.

End SignedClaims.

(** ** src/mastra/agents/helpdesk-agent.ts, second revision *)

Module DirectAssertionAgent.
Import SignAssertion.

(** Lines 179-184: the options [getAuthToken] passes on. *)
Definition getAuthToken_opts (env : gmap string string) : Opts :=
  {| privateJwkPath :=
       HelpdeskAgent.env_or_else env "HELPDESK_PRIVATE_JWK_PATH"
         "/home/brucec/techplay2/sandbox/auth-template-hackathon-v0/secrets/a1-ed25519-2023-10-01-12345678.private.jwk.json";
     audience :=
       HelpdeskAgent.env_or_else env "TICKETS_AUD"
         "https://tools.local/tickets";
     agentId :=
       Some (HelpdeskAgent.env_or_else env "HELPDESK_AGENT_ID"
               "a1-ed25519-2023-10-01-1234567") |}.

Section getAuthToken.
Context {CryptoKey : Type}.
Variable fetch : string → exn + Response.
Variable readJwkFile : string → exn + JwkDocument.
Variable importJWK : Jwk → string → exn + CryptoKey.
Variable sign : SignJWT → CryptoKey → exn + string.
Variable randomUUID : nat → string.

(** Lines 177-195; the handler logs and rethrows. *)
Definition getAuthToken (env : gmap string string) : M World string :=
  try_catch
    (makeClientAssertion fetch readJwkFile importJWK sign randomUUID
       (getAuthToken_opts env))
    (λ error, throw error).
End getAuthToken.

End DirectAssertionAgent.

(** ** src/mastra/tools/tickets-tool.ts: the stub business logic *)

Module TicketData.

Record Ticket : Type := mkTicket {
  id : string;
  title : string;
  ticket_by : string;
  description : option string;
  status : option string;
  createdAt : option string
}.

Global Instance Ticket_eq_dec : EqDecision Ticket.
Proof. solve_decision. Defined.

Record TicketsResult : Type := mkResult {
  tickets : list Ticket;
  count : nat
}.

(** [getTickets(agentId, statusFilter)]; [isoNow i] is what the i-th
    [new Date().toISOString()] of the call returns. *)
Definition getTickets (isoNow : nat → string) (agentId statusFilter : string)
  : TicketsResult :=
  let allTickets :=
    [ {| id := "T-1"; title := "Hello"; ticket_by := agentId;
         description := Some "Initial ticket"; status := Some "open";
         createdAt := Some (isoNow 0%nat) |};
      {| id := "T-2"; title := "Bug Report"; ticket_by := agentId;
         description := Some "System issue reported";
         status := Some "in_progress";
         createdAt := Some (isoNow 1%nat) |};
      {| id := "T-3"; title := "Feature Request"; ticket_by := agentId;
         description := Some "New feature suggestion";
         status := Some "closed";
         createdAt := Some (isoNow 2%nat) |} ] in
  let filteredTickets :=
    if negb (String.eqb statusFilter "all") then
      filter (λ ticket, status ticket = Some statusFilter) allTickets
    else allTickets in
  {| tickets := filteredTickets; count := length filteredTickets |}.

End TicketData.

(** ** src/mastra/tools/tickets-tool.ts, first revision *)

Module DirectTicketsTool.
Import TicketsTool.

(** The allow-list built at module load; an unset variable contributes
    [undefined], which no verified identity equals. *)
Definition ALLOWED_AGENTS (env : gmap string string) : list (option string) :=
  [ Some "agent://demo/a1"; Some "agent://helpdesk/hd1";
    Some "agent://worf"; Some "a1-ed25519-2023-10-01-12345678";
    env !! "AGENT_ID"; env !! "HELPDESK_AGENT_ID" ].

(** [ALLOWED_AGENTS.has(verifiedAgentId)] *)
Definition allowed (env : gmap string string) (verifiedAgentId : string)
  : bool :=
  bool_decide (Some verifiedAgentId ∈ ALLOWED_AGENTS env).

Section tools.
Variable jwtVerify :
  string → string → string → exn + (Jose.JWTPayload * Jose.ProtectedHeader).
Variable env : gmap string string.
Context {TicketList NewTicket : Type}.
Variable ticketsOf : string → string → TicketList.
Variable ticketFor : string → option string → string → NewTicket.

(** Lines 14-17. *)
Definition verify : option string → M (gmap string Z) VerifyAssertion.Verified :=
  VerifyAssertion.makeVerifier jwtVerify
    (verifyDirectJWT_config env).1 (verifyDirectJWT_config env).2.

(** [ticketsTool.execute], lines 53-68. *)
Definition ticketsTool (authToken status : string)
  : M (@ToolStore (gmap string Z)) TicketList :=
  try_catch
    (v <- withVerifier (verify (Some ("Bearer " +:+ authToken))) ;;
     let verifiedAgentId := VerifyAssertion.agentId v in
     if negb (allowed env verifiedAgentId) then
       throw (Error "Agent not authorized to access tickets")
     else getTickets ticketsOf verifiedAgentId status)
    (λ error, throw (Error ("Authentication failed: " +:+ message error))).

(** [createTicketTool.execute], lines 133-152. *)
Definition createTicketTool (authToken title : string)
    (description : option string)
  : M (@ToolStore (gmap string Z)) NewTicket :=
  try_catch
    (v <- withVerifier (verify (Some ("Bearer " +:+ authToken))) ;;
     let verifiedAgentId := VerifyAssertion.agentId v in
     if negb (allowed env verifiedAgentId) then
       throw (Error "Agent not authorized to create tickets")
     else createTicket ticketFor title description verifiedAgentId)
    (λ error, throw (Error ("Authentication failed: " +:+ message error))).
End tools.

(** A key service that knows one token, ["mallory"], a self-issued
    assertion of an identity outside the allow-list. *)
Definition stranger_jwtVerify (token jwksUrl audience : string)
  : exn + (Jose.JWTPayload * Jose.ProtectedHeader) :=
  if String.eqb token "mallory" then
    inr ({| Jose.iss := Some "agent://mallory";
            Jose.sub := Some "agent://mallory";
            Jose.exp := Some 300; Jose.jti := Some "m1";
            Jose.scopes := [] |},
         {| Jose.alg := "EdDSA"; Jose.kid := Some "k9" |})
  else inl (Error "signature verification failed").

End DirectTicketsTool.

(** ** src/mastra/agents/helpdesk-agent.ts: the agent's token tools *)

Module AgentTools.
Import HelpdeskAgent.

(** Every cached token that decodes to a non-zero expiry is cached until
    at least 60 seconds before that expiry. *)
Definition margin_inv (parseSegment : string → option Jose.JWTPayload)
    (w : World) : Prop :=
  ∀ k c e, tokenCache w !! k = Some c →
    tokenExpMs parseSegment (token c) = Some e → e ≠ 0 →
    expires c ≤ e - 60 * 1000.

(** The two tools of the agent that fetch tokens. *)
Inductive AgentCall : Type :=
  | GetTicketsToken
  | GetCreateTicketToken.

Section tools.
Variable parseSegment : string → option Jose.JWTPayload.
Variable exchangeForAccessToken : ExchangeArgs → Z → (exn + string) * Z.
Variable env : gmap string string.

(** [getTicketsToken.execute] (lines 493-498 of the last revision). *)
Definition getTicketsToken : M World string :=
  getAccessToken parseSegment exchangeForAccessToken env
    "https://tools.local/tickets" ["tickets.read"].

(** [getCreateTicketToken.execute] (lines 507-512). *)
Definition getCreateTicketToken : M World string :=
  getAccessToken parseSegment exchangeForAccessToken env
    "https://tools.local/tickets" ["tickets.write"].

Definition call (c : AgentCall) : M World string :=
  match c with
  | GetTicketsToken => getTicketsToken
  | GetCreateTicketToken => getCreateTicketToken
  end.

(** The worlds the agent can be in: it starts with an empty cache, time
    passes, and the tools are called in any order. *)
Inductive reachable : World → Prop :=
  | reach_start (t : Z) :
      reachable {| clock := t; tokenCache := ∅; exchangeLog := [] |}
  | reach_tick (w : World) (t : Z) :
      reachable w →
      reachable {| clock := t; tokenCache := tokenCache w;
                   exchangeLog := exchangeLog w |}
  | reach_call (w : World) (c : AgentCall) :
      reachable w → reachable (call c w).2.
End tools.

(** A process with the three required variables set. *)
Definition full_env : gmap string string :=
  {[ "HELPDESK_PRIVATE_JWK_PATH" := "secrets/a1.private.jwk.json";
     "HELPDESK_AGENT_ID" := "agent://worf";
     "TOKEN_SERVICE_URL" := "http://localhost:8787" ]}.

(** A Token Service whose tokens carry no readable expiry. *)
Definition opaque_exchange (args : ExchangeArgs) (now : Z)
  : (exn + string) * Z :=
  (inr "opaque-token", now + 5).

End AgentTools.

(** ** src/auth/signAssertion.ts: a remote key set without keys *)

Module KeySetInputs.
Import SignAssertion.

(** A call that names a key endpoint and gives no [agentId]. *)
Definition anonymous_url_opts : Opts :=
  {| privateJwkPath := "http://localhost:8787/.well-known/jwks.json";
     audience := "https://tools.local/tickets";
     agentId := None |}.

End KeySetInputs.

(** ** src/mastra/agents/helpdesk-agent.ts: the requests the sources make *)

Module CacheRuns.
Import HelpdeskAgent.

(** The audience and the scope arrays [getAccessToken] is called with:
    lines 141-143 and 155-157 (494-496 and 508-510 in the last revision)
    and, in the first revision, lines 100-103. *)
Definition tickets_audience : string := "https://tools.local/tickets".

Definition requested_scopes : list (list string) :=
  [ ["tickets.read"]; ["tickets.write"]; ["tickets.read"; "tickets.write"] ].

Section runs.
Variable parseSegment : string → option Jose.JWTPayload.
Variable exchangeForAccessToken : ExchangeArgs → Z → (exn + string) * Z.

(** The scopes a token carries in its own payload (none when the payload
    does not decode). *)
Definition tokenScopes (token : string) : list string :=
  match decodeJWTPayload parseSegment token with
  | Some payload => Jose.scopes payload
  | None => []
  end.

(** The Token Service honours requests: a token it issues carries at
    least the scopes it was asked for. *)
Definition grants_requested : Prop :=
  ∀ args now tok,
    (exchangeForAccessToken args now).1 = inr tok →
    ∀ s, s ∈ scopes args → s ∈ tokenScopes tok.

(** Every token in the log was returned by the Token Service for the
    arguments logged with it. *)
Definition log_inv (w : World) : Prop :=
  ∀ args tok, (args, inr tok) ∈ exchangeLog w →
    ∃ now, (exchangeForAccessToken args now).1 = inr tok.

(** The hit rule as it reads on the caches the function builds: an entry
    under the key, not past its [expires], whose token decodes to an
    expiry at least 30 seconds ahead. *)
Definition serveable (cacheKey : string) (w : World) : Prop :=
  ∃ cached e,
    tokenCache w !! cacheKey = Some cached ∧
    clock w < expires cached ∧
    tokenExpMs parseSegment (token cached) = Some e ∧
    clock w + 30 * 1000 ≤ e.

(** The worlds the process can be in: the cache starts empty, time
    passes, and [getAccessToken] is called with the arguments above,
    under any configuration. *)
Inductive reachable : World → Prop :=
  | start (t : Z) :
      reachable {| clock := t; tokenCache := ∅; exchangeLog := [] |}
  | tick (w : World) (t : Z) :
      reachable w →
      reachable {| clock := t; tokenCache := tokenCache w;
                   exchangeLog := exchangeLog w |}
  | request (w : World) (cfg : Config) (scopes : list string) :
      reachable w → scopes ∈ requested_scopes →
      reachable
        (getAccessTokenWith parseSegment exchangeForAccessToken cfg
           tickets_audience scopes w).2.
End runs.

(** Tokens whose middle segment names their scopes; all expire at
    900 s. *)
Definition scoped_parseSegment (segment : string)
  : option Jose.JWTPayload :=
  let payload sc :=
    Some {| Jose.iss := Some "https://token-service.local";
            Jose.sub := Some "agent://worf"; Jose.exp := Some 900;
            Jose.jti := Some "t1"; Jose.scopes := sc |} in
  if String.eqb segment "r" then payload ["tickets.read"]
  else if String.eqb segment "w" then payload ["tickets.write"]
  else if String.eqb segment "rw" then
    payload ["tickets.read"; "tickets.write"]
  else None.

(** A Token Service that issues exactly what the sources ask for and
    refuses everything else. *)
Definition granting_exchange (args : ExchangeArgs) (now : Z)
  : (exn + string) * Z :=
  if bool_decide (scopes args = ["tickets.read"]) then
    (inr "hdr.r.sig", now + 5)
  else if bool_decide (scopes args = ["tickets.write"]) then
    (inr "hdr.w.sig", now + 5)
  else if bool_decide (scopes args = ["tickets.read"; "tickets.write"]) then
    (inr "hdr.rw.sig", now + 5)
  else (inl (Error "scope not permitted"), now + 5).

(** A Token Service that answers during the first second and cannot be
    reached afterwards. *)
Definition flaky_exchange (args : ExchangeArgs) (now : Z)
  : (exn + string) * Z :=
  if now <? 1000 then (inr "hdr.exp900.sig", now + 5)
  else (inl (Error "fetch failed"), now + 5).

(** The same Token Service, issuing a token without a readable expiry. *)
Definition flaky_opaque_exchange (args : ExchangeArgs) (now : Z)
  : (exn + string) * Z :=
  if now <? 1000 then (inr "opaque-token", now + 5)
  else (inl (Error "fetch failed"), now + 5).

End CacheRuns.
(** * Properties *)

Lemma truthy_str_Some (s : string) : s ≠ "" → truthy_str (Some s) = true.
Proof.
  intros Hs. unfold truthy_str.
  destruct (String.eqb_spec s ""); [contradiction|reflexivity].
Qed.

Lemma truthy_num_Some (n : Z) : n ≠ 0 → truthy_num (Some n) = true.
Proof.
  intros Hn. unfold truthy_num.
  destruct (Z.eqb_spec n 0); [contradiction|reflexivity].
Qed.

Lemma startsWith_Bearer (token : string) :
  startsWith ("Bearer " +:+ token) "Bearer " = true.
Proof. unfold startsWith. cbn. destruct token; reflexivity. Qed.

Lemma truthy_str_inv (o : option string) :
  truthy_str o = true → ∃ s, o = Some s ∧ s ≠ "".
Proof.
  destruct o as [s|]; [|discriminate]. simpl.
  destruct (String.eqb_spec s ""); [discriminate|]. eauto.
Qed.

Lemma truthy_num_inv (o : option Z) :
  truthy_num o = true → ∃ n, o = Some n ∧ n ≠ 0.
Proof.
  destruct o as [n|]; [|discriminate]. simpl.
  destruct (Z.eqb_spec n 0); [discriminate|]. eauto.
Qed.

(** ** Replay detection in the assertion verifier *)

Module ReplayGuard.
Import Jose VerifyAssertion.

Example verify_requires_bearer :
  makeVerifier demo_jwtVerify "https://keys.local/jwks.json"
    "https://tools.local/tickets" None ∅
    = (inl (Error "Missing bearer token"), ∅) ∧
  makeVerifier demo_jwtVerify "https://keys.local/jwks.json"
    "https://tools.local/tickets" (Some "Basic dXNlcg==") ∅
    = (inl (Error "Missing bearer token"), ∅) ∧
  makeVerifier demo_jwtVerify "https://keys.local/jwks.json"
    "https://tools.local/tickets" (Some "Bearer forged") ∅
    = (inl (Error "signature verification failed"), ∅).
Proof. repeat split; reflexivity. Qed.

Section replay.
Variable jwtVerify :
  string → string → string → exn + (JWTPayload * ProtectedHeader).
Variables jwksUrl expectedAudience : string.

Local Notation "'verify'" :=
  (makeVerifier jwtVerify jwksUrl expectedAudience).
Local Notation "'presents'" :=
  (VerifyAssertion.presents jwtVerify jwksUrl expectedAudience).

(** Past the checks of lines 9-19 the outcome is decided by
    [replayCache.has(jti)] alone. *)
Lemma verify_presents h i e j k (cache : gmap string Z) :
  presents h i e j k →
  verify (Some h) cache =
    match cache !! j with
    | Some _ => (inl (Error "Replay detected"), cache)
    | None => (inr (mkVerified i k), <[j := e]> cache)
    end.
Proof.
  intros (Hb & payload & hdr & Hv & Hi & Hs & Hne & He & He0 & Hj & Hj0 & Hk).
  unfold makeVerifier. rewrite Hb. cbn [negb].
  rewrite Hv, Hi, Hs, He, Hj.
  rewrite (truthy_str_Some _ Hne), (truthy_num_Some _ He0),
    (truthy_str_Some _ Hj0).
  rewrite bool_decide_eq_true_2 by reflexivity. cbn [negb orb].
  rewrite Hk. reflexivity.
Qed.

(** C1 (amended): once a presented token has passed the signature,
    audience, issuer/subject and required-claim checks, verification fails
    with "Replay detected" whenever its jti is recorded in the replay
    table, whether or not that record has expired; otherwise jti -> exp
    is recorded and the token is accepted.  So an assertion verifies
    exactly once: after an acceptance any token with the same jti is
    rejected, and stays rejected at every later time. *)
Theorem replay_decision h i e j k (cache : gmap string Z) :
  presents h i e j k →
  (∀ r, cache !! j = Some r →
     verify (Some h) cache = (inl (Error "Replay detected"), cache)) ∧
  (cache !! j = None →
     verify (Some h) cache = (inr (mkVerified i k), <[j := e]> cache) ∧
     ∀ h' i' e' k', presents h' i' e' j k' →
       verify (Some h') (<[j := e]> cache)
         = (inl (Error "Replay detected"), <[j := e]> cache)).
Proof.
  intros Hp. split.
  - intros r Hr. rewrite (verify_presents _ _ _ _ _ _ Hp), Hr. reflexivity.
  - intros Hnone. split.
    + rewrite (verify_presents _ _ _ _ _ _ Hp), Hnone. reflexivity.
    + intros h' i' e' k' Hp'.
      rewrite (verify_presents _ _ _ _ _ _ Hp'), lookup_insert_eq.
      reflexivity.
Qed.
End replay.

Lemma demo_presents :
  presents demo_jwtVerify "https://keys.local/jwks.json"
    "https://tools.local/tickets" "Bearer tok" "agent://demo/a1" 300 "j1"
    (Some "k1").
Proof.
  split; [reflexivity|].
  eexists _, _. split; [reflexivity|].
  repeat split; done.
Defined.

Lemma replay_decision_witness :
  makeVerifier demo_jwtVerify "https://keys.local/jwks.json"
    "https://tools.local/tickets" (Some "Bearer tok") ∅
  = (inr (mkVerified "agent://demo/a1" (Some "k1")), {["j1" := 300]}).
Proof.
  apply (replay_decision demo_jwtVerify _ _ _ _ _ _ _ ∅ demo_presents).
  apply lookup_empty.
Defined.

(** C1 as stated fails: the table holds a record for ["j1"] that expired
    at 100; at time 200 a validly signed token with that jti and expiry
    300 is presented.  The replay-guard contract accepts it, the code
    answers "Replay detected". *)
Lemma replay_expired_record_rejected :
  let cache : gmap string Z := {["j1" := 100]} in
  record_expired 200 100 = true ∧
  (spec_record 200 "j1" 300 cache).1 = true ∧
  makeVerifier demo_jwtVerify "https://keys.local/jwks.json"
    "https://tools.local/tickets" (Some "Bearer tok") cache
  = (inl (Error "Replay detected"), cache).
Proof.
  intros cache. split; [reflexivity|]. split.
  - unfold spec_record, cache. rewrite lookup_singleton_eq. reflexivity.
  - rewrite (verify_presents _ _ _ _ _ _ _ _ _ demo_presents).
    unfold cache. rewrite lookup_singleton_eq. reflexivity.
Qed.

End ReplayGuard.

(** ** The assertion signer *)

Module Signer.
Import SignAssertion.

Section signer.
Context {CryptoKey : Type}.
Variable fetch : string → exn + Response.
Variable readJwkFile : string → exn + JwkDocument.
Variable importJWK : Jwk → string → exn + CryptoKey.
Variable sign : SignJWT → CryptoKey → exn + string.
Variable randomUUID : nat → string.

Local Notation "'loadKey'" := (SignAssertion.loadKey fetch readJwkFile).
Local Notation "'makeClientAssertion'" :=
  (SignAssertion.makeClientAssertion
     fetch readJwkFile importJWK sign randomUUID).

(** C7: every assertion that is produced was signed over a claim set with
    issuer = subject = the resolved agent identifier, issuedAt = the
    current time in seconds, expiresAt = issuedAt + 60, the identifier
    drawn from randomUUID for this call (the next call draws the next
    one), and a protected header with alg "EdDSA" and the key's kid. *)
Theorem assertion_shape o w s w' :
  makeClientAssertion o w = (inr s, w') →
  ∃ priv k a key jwt,
    loadKey o = inr (Some priv, Some a) ∧
    kid priv = Some k ∧ k ≠ "" ∧ a ≠ "" ∧
    importJWK priv "EdDSA" = inr key ∧
    sign jwt key = inr s ∧
    header_alg jwt = "EdDSA" ∧ header_kid jwt = k ∧
    claim_iss jwt = a ∧ claim_sub jwt = a ∧
    claim_aud jwt = audience o ∧
    claim_iat jwt = clock w `div` 1000 ∧
    claim_exp jwt = claim_iat jwt + 60 ∧
    claim_jti jwt = randomUUID (uuid_calls w) ∧
    uuid_calls w' = S (uuid_calls w).
Proof.
  unfold SignAssertion.makeClientAssertion. intros H.
  destruct (loadKey o) as [e|[[priv|] agent]] eqn:Hl; try discriminate.
  destruct (truthy_str (kid priv)) eqn:Hk; simpl in H; [|discriminate].
  destruct (truthy_str agent) eqn:Ha; simpl in H; [|discriminate].
  apply truthy_str_inv in Hk as (k & Hk & Hk0).
  apply truthy_str_inv in Ha as (a & -> & Ha0).
  destruct (importJWK priv "EdDSA") as [e|key] eqn:Hi; [discriminate|].
  injection H as Hs <-. rewrite Hk in Hs. simpl in Hs.
  exists priv, k, a, key. eexists. repeat split; eauto.
Qed.

(** What [loadKey] resolves the agent identifier to. *)
Lemma loadKey_agent o priv agent :
  loadKey o = inr (Some priv, agent) →
  agent =
    if startsWith (privateJwkPath o) "http://"
       || startsWith (privateJwkPath o) "https://"
    then or_str (agentId o) (agent_id priv)
    else agent_id priv.
Proof.
  unfold SignAssertion.loadKey, or_str.
  destruct (startsWith (privateJwkPath o) "http://"
            || startsWith (privateJwkPath o) "https://").
  - destruct (fetch _) as [|r]; [discriminate|].
    destruct (ok r); simpl; [|discriminate].
    destruct (json r) as [|data]; [discriminate|].
    destruct (truthy_str (agentId o)).
    + intros [= _ <-]. reflexivity.
    + destruct (match keys data with Some ks => head ks | None => _ end);
        [|discriminate].
      intros [= <- <-]. reflexivity.
  - destruct (readJwkFile _); [discriminate|]. intros [= <- <-]. reflexivity.
Qed.

(** The two guards, for a call that has a key object in hand: signing
    fails with "Private JWK missing kid" when the key has no kid, and with
    "Agent ID not provided and not found in JWK" when the kid is there but
    neither the key nor the caller supplies an agent identifier; in both
    cases nothing is signed and no identifier is consumed. *)
Lemma signing_failures o w priv agent :
  loadKey o = inr (Some priv, agent) →
  (truthy_str (kid priv) = false →
     makeClientAssertion o w = (inl (Error "Private JWK missing kid"), w)) ∧
  (truthy_str (kid priv) = true →
   truthy_str (agentId o) = false → truthy_str (agent_id priv) = false →
     makeClientAssertion o w =
       (inl (Error "Agent ID not provided and not found in JWK"), w)).
Proof.
  intros Hl. pose proof (loadKey_agent _ _ _ Hl) as Ha.
  unfold SignAssertion.makeClientAssertion. rewrite Hl. split.
  - intros ->. reflexivity.
  - intros -> Ho Hp. simpl.
    assert (truthy_str agent = false) as ->; [|reflexivity].
    rewrite Ha. unfold or_str. rewrite Ho.
    destruct (_ || _); exact Hp.
Qed.

(** C10: when privateJwkPath is not an http:// or https:// URL the
    agentId argument plays no part.  The outcome is the same for every
    agentId; a key file with a kid and an agent_id yields the assertion
    signed over issuer = subject = that agent_id, whatever agentId was
    passed; every assertion produced is of that kind; and the call fails,
    whatever agentId was passed, when the file has no agent_id. *)
Theorem file_path_ignores_agentId path aud a w :
  startsWith path "http://" = false →
  startsWith path "https://" = false →
  (∀ a', makeClientAssertion (mkOpts path aud a) w
         = makeClientAssertion (mkOpts path aud a') w) ∧
  (∀ doc i key,
     readJwkFile path = inr doc →
     truthy_str (kid (self doc)) = true →
     agent_id (self doc) = Some i → i ≠ "" →
     importJWK (self doc) "EdDSA" = inr key →
     let jwt := SignedClaims.claimsFor randomUUID (self doc) i aud w in
     makeClientAssertion (mkOpts path aud a) w =
       (sign jwt key,
        {| clock := clock w; uuid_calls := S (uuid_calls w) |}) ∧
     claim_iss jwt = i ∧ claim_sub jwt = i) ∧
  (∀ s w', makeClientAssertion (mkOpts path aud a) w = (inr s, w') →
     ∃ doc key i,
       readJwkFile path = inr doc ∧ agent_id (self doc) = Some i ∧
       importJWK (self doc) "EdDSA" = inr key ∧
       sign (SignedClaims.claimsFor randomUUID (self doc) i aud w) key
         = inr s) ∧
  (∀ doc, readJwkFile path = inr doc →
     truthy_str (agent_id (self doc)) = false →
     makeClientAssertion (mkOpts path aud a) w =
       (inl (Error (if truthy_str (kid (self doc))
                    then "Agent ID not provided and not found in JWK"
                    else "Private JWK missing kid")), w)).
Proof.
  intros H1 H2.
  assert (∀ a0, loadKey (mkOpts path aud a0) =
                match readJwkFile path with
                | inl e => inl e
                | inr data => inr (Some (self data), agent_id (self data))
                end) as Hload.
  { intros a0. unfold SignAssertion.loadKey. simpl. rewrite H1, H2.
    reflexivity. }
  split; [|split; [|split]].
  - intros a'. unfold SignAssertion.makeClientAssertion.
    rewrite !Hload. reflexivity.
  - intros doc i key Hd Hk Ha Hi0 Hi jwt. split; [|split; reflexivity].
    unfold SignAssertion.makeClientAssertion.
    rewrite Hload, Hd, Hk, Ha, (truthy_str_Some _ Hi0), Hi. reflexivity.
  - intros s w'. unfold SignAssertion.makeClientAssertion. rewrite Hload.
    destruct (readJwkFile path) as [|doc]; [discriminate|].
    destruct (truthy_str (kid (self doc))); simpl; [|discriminate].
    destruct (truthy_str (agent_id (self doc))) eqn:Ha; simpl;
      [|discriminate].
    apply truthy_str_inv in Ha as (i & Ha & _).
    destruct (importJWK (self doc) "EdDSA") as [|key] eqn:Hi;
      [discriminate|].
    intros [= Hs _]. exists doc, key, i. rewrite Ha in Hs.
    repeat split; auto.
  - intros doc Hd Ha. unfold SignAssertion.makeClientAssertion.
    rewrite Hload, Hd, Ha.
    destruct (truthy_str (kid (self doc))); reflexivity.
Qed.
End signer.

(** C8: the guards are not reached when a key endpoint answers with a
    key set whose keys array is empty.  Such key material has no kid, and
    without an agentId no agent can be resolved, yet the call ends in a
    TypeError instead of "Private JWK missing kid" or "Agent ID not
    provided and not found in JWK": without an agentId when agent_id is
    read from the missing key, with one when kid is. *)
Theorem empty_key_set_type_error :
  let w := {| clock := 0; uuid_calls := 0 |} in
  makeClientAssertion SignedClaims.empty_jwks_fetch demo_readJwkFile
    demo_importJWK demo_sign demo_randomUUID
    KeySetInputs.anonymous_url_opts w
  = (inl (TypeError
       "Cannot read properties of undefined (reading 'agent_id')"), w) ∧
  makeClientAssertion SignedClaims.empty_jwks_fetch demo_readJwkFile
    demo_importJWK demo_sign demo_randomUUID SignedClaims.url_opts w
  = (inl (TypeError
       "Cannot destructure property 'kid' of 'priv' as it is undefined."),
     w).
Proof. split; reflexivity. Qed.

Lemma file_path_ignores_agentId_witness :
  makeClientAssertion demo_fetch demo_readJwkFile demo_importJWK
    demo_sign demo_randomUUID demo_opts {| clock := 0; uuid_calls := 0 |}
  = (inr "agent://worf|3f2c0c5e-0000-4000-8000-000000000000",
     {| clock := 0; uuid_calls := 1 |}).
Proof.
  destruct (file_path_ignores_agentId demo_fetch demo_readJwkFile
              demo_importJWK demo_sign demo_randomUUID
              "secrets/a1.private.jwk.json" "https://tools.local/tickets"
              (Some "agent://other") {| clock := 0; uuid_calls := 0 |}
              eq_refl eq_refl) as (_ & Hsigned & _).
  refine (proj1 (Hsigned
                   {| keys := None;
                      self := {| kid := Some "a1-ed25519";
                                 agent_id := Some "agent://worf";
                                 params := "d=..." |} |}
                   "agent://worf" "d=..." eq_refl eq_refl eq_refl _ eq_refl)).
  discriminate.
Defined.

Lemma assertion_shape_witness :
  ∃ jwt,
    demo_sign jwt "d=..." = inr
      "agent://worf|3f2c0c5e-0000-4000-8000-000000000000" ∧
    claim_iss jwt = "agent://worf" ∧ claim_sub jwt = "agent://worf" ∧
    claim_iat jwt = 1755286 ∧ claim_exp jwt = 1755346.
Proof.
  destruct (assertion_shape demo_fetch demo_readJwkFile demo_importJWK
              demo_sign demo_randomUUID demo_opts
              {| clock := 1755286299; uuid_calls := 0 |}
              "agent://worf|3f2c0c5e-0000-4000-8000-000000000000"
              {| clock := 1755286299; uuid_calls := 1 |} eq_refl)
    as (priv & k & a & key & jwt & Hl & Hk & _ & _ & Hi & Hs & _ & _
        & Hiss & Hsub & _ & Hiat & Hexp & _).
  injection Hl as <- <-. injection Hi as <-.
  exists jwt. rewrite Hexp, Hiat. auto.
Defined.

End Signer.


(** ** Scope enforcement in the tools *)

Module ScopePolicy.
Import AccessTokenVerifier TicketsTool.

Lemma prefix_app_inv (p x b : string) :
  String.prefix p (x +:+ b) = true →
  String.prefix p x = true ∨ straddles p b = true.
Proof.
  revert p. induction x as [|c x IH]; intros p Hp.
  - destruct p as [|d p]; [left; reflexivity|].
    change ("" +:+ b) with b in Hp.
    right. cbn [straddles]. rewrite Hp. reflexivity.
  - destruct p as [|d p]; [left; reflexivity|].
    change (String c x +:+ b) with (String c (x +:+ b)) in Hp.
    cbn [String.prefix] in Hp |- *.
    destruct (ascii_dec d c); [|discriminate].
    destruct (IH _ Hp) as [H|H]; [left; exact H|].
    right. cbn [straddles]. rewrite H. apply orb_true_r.
Qed.

Lemma includes_app (x b p : string) :
  includes x p = false → straddles p b = false → includes b p = false →
  includes (x +:+ b) p = false.
Proof.
  intros Hx Hs Hb. induction x as [|c x IH]; [exact Hb|].
  cbn [includes] in Hx. apply orb_false_iff in Hx as [Hpre Hx].
  change (String c x +:+ b) with (String c (x +:+ b)).
  cbn [includes]. rewrite (IH Hx), orb_false_r.
  destruct (String.prefix p (String c (x +:+ b))) eqn:E; [|reflexivity].
  apply (prefix_app_inv p (String c x) b) in E as [E|E]; congruence.
Qed.

(** The message of the scope failure is not mistaken for an issuer
    failure, unless the scope name itself contains that text. *)
Lemma insufficient_not_issuer (requiredScope : string) :
  includes requiredScope "Invalid issuer" = false →
  includes ("Insufficient permissions: " +:+ requiredScope
            +:+ " scope required") "Invalid issuer" = false.
Proof.
  intros H.
  assert (includes (requiredScope +:+ " scope required") "Invalid issuer"
          = false) as Hrest
    by (apply includes_app; [exact H|reflexivity|reflexivity]).
  cbn. exact Hrest.
Qed.

Section scope.
Context {V TicketList NewTicket : Type}.
Variable verifyAccessToken : string → M V AccessInfo.
Variable ticketsOf : string → string → TicketList.
Variable ticketFor : string → option string → string → NewTicket.

Local Notation "'verifyToken'" := (TicketsTool.verifyToken verifyAccessToken).

Lemma verifyToken_insufficient h requiredScope v result v' :
  verifyAccessToken h v = (inr result, v') →
  requiredScope ∉ scopes result →
  includes requiredScope "Invalid issuer" = false →
  verifyToken h requiredScope v =
    (inl (Error ("Insufficient permissions: " +:+ requiredScope
                 +:+ " scope required")), v').
Proof.
  intros Hv Hs Hi.
  unfold TicketsTool.verifyToken, try_catch, bind, throw, hasRequiredScope.
  rewrite Hv, bool_decide_eq_false_2 by exact Hs. cbn [negb message].
  rewrite (insufficient_not_issuer _ Hi). reflexivity.
Qed.

(** C3: when the verified token's scope list lacks the required scope,
    verification fails with "Insufficient permissions: <scope> scope
    required", for every scope name that does not itself contain the text
    the handler reserves for issuer failures; so ticketsTool (which
    requires tickets.read) and createTicketTool (tickets.write) fail with
    that error, naming the scope, and no business call is executed. *)
Theorem insufficient_scope_rejected authToken (s : ToolStore) result v' :
  verifyAccessToken ("Bearer " +:+ authToken) (verifier s) = (inr result, v') →
  (∀ requiredScope,
     requiredScope ∉ scopes result →
     includes requiredScope "Invalid issuer" = false →
     verifyToken ("Bearer " +:+ authToken) requiredScope (verifier s) =
       (inl (Error ("Insufficient permissions: " +:+ requiredScope
                    +:+ " scope required")), v')) ∧
  ("tickets.read" ∉ scopes result →
     ∀ status,
     ticketsTool verifyAccessToken ticketsOf authToken status s =
       (inl (Error "Authentication failed: Insufficient permissions: tickets.read scope required"),
        {| verifier := v'; executed := executed s |})) ∧
  ("tickets.write" ∉ scopes result →
     ∀ title description,
     createTicketTool verifyAccessToken ticketFor authToken title
       description s =
       (inl (Error "Authentication failed: Insufficient permissions: tickets.write scope required"),
        {| verifier := v'; executed := executed s |})).
Proof.
  intros Hv. split; [|split].
  - intros rs Hs Hi. exact (verifyToken_insufficient _ _ _ _ _ Hv Hs Hi).
  - intros Hs status.
    unfold ticketsTool, try_catch, bind, withVerifier.
    rewrite (verifyToken_insufficient _ _ _ _ _ Hv Hs eq_refl).
    reflexivity.
  - intros Hs title description.
    unfold createTicketTool, try_catch, bind, withVerifier.
    rewrite (verifyToken_insufficient _ _ _ _ _ Hv Hs eq_refl).
    reflexivity.
Qed.
End scope.

Lemma insufficient_scope_rejected_witness :
  createTicketTool demo_verifyAccessToken
    (λ title description agentId, (title, description, agentId))
    "token" "Printer on fire" None {| verifier := (); executed := [] |}
  = (inl (Error "Authentication failed: Insufficient permissions: tickets.write scope required"),
     {| verifier := (); executed := [] |}).
Proof.
  destruct (insufficient_scope_rejected (TicketList := unit)
              demo_verifyAccessToken (λ _ _, ())
              (λ title description agentId, (title, description, agentId))
              "token" {| verifier := (); executed := [] |}
              {| agentId := "agent://worf"; scopes := ["tickets.read"] |}
              () eq_refl) as (_ & _ & Hw).
  apply Hw. intros Hin. apply list_elem_of_singleton in Hin. discriminate.
Defined.

End ScopePolicy.

(** ** Issuer enforcement for access tokens *)

Module IssuerPolicy.
Import Jose AccessTokenVerifier TicketsTool.

Section issuer.
Variable jwtVerify :
  string → string → string → exn + (JWTPayload * ProtectedHeader).
Variables tokenServiceIssuer jwksUrl expectedAudience : string.
Variable now : Z.
Context {TicketList NewTicket : Type}.
Variable ticketsOf : string → string → TicketList.
Variable ticketFor : string → option string → string → NewTicket.

Local Notation "'verifyAccessToken'" :=
  (makeAccessTokenVerifier jwtVerify tokenServiceIssuer jwksUrl
     expectedAudience now).

(** C2: a bearer token that is well-formed and validly signed, but whose
    issuer is not the trusted Token Service identity, is rejected by the
    access-token verifier with "Invalid issuer", leaving the replay table
    untouched; verifyToken reports it as "Token service required - direct
    JWT not accepted for security" whatever scope is required, and both
    tools fail without executing business logic.  A self-issued assertion
    (iss = sub = an agent other than the Token Service) is one such
    token. *)
Theorem untrusted_issuer_rejected token payload protectedHeader
    (s : @ToolStore (gmap string Z)) :
  jwtVerify token jwksUrl expectedAudience = inr (payload, protectedHeader) →
  iss payload ≠ Some tokenServiceIssuer →
  let h := "Bearer " +:+ token in
  verifyAccessToken h (verifier s)
    = (inl (Error "Invalid issuer"), verifier s) ∧
  (∀ requiredScope,
     verifyToken verifyAccessToken h requiredScope (verifier s)
       = (inl (Error
            "Token service required - direct JWT not accepted for security"),
          verifier s)) ∧
  (∀ status,
     ticketsTool verifyAccessToken ticketsOf token status s
       = (inl (Error "Authentication failed: Token service required - direct JWT not accepted for security"),
          s)) ∧
  (∀ title description,
     createTicketTool verifyAccessToken ticketFor token title description s
       = (inl (Error "Authentication failed: Token service required - direct JWT not accepted for security"),
          s)).
Proof.
  intros Hv Hiss h.
  assert (verifyAccessToken h (verifier s)
          = (inl (Error "Invalid issuer"), verifier s)) as Hr.
  { unfold makeAccessTokenVerifier, h.
    rewrite startsWith_Bearer.
    change (slice 7 ("Bearer " +:+ token)) with token.
    cbn [negb]. rewrite Hv, bool_decide_eq_false_2 by exact Hiss.
    reflexivity. }
  assert (∀ requiredScope,
            verifyToken verifyAccessToken h requiredScope (verifier s)
            = (inl (Error
                 "Token service required - direct JWT not accepted for security"),
               verifier s)) as Ht.
  { intros rs. unfold verifyToken, try_catch, bind. rewrite Hr.
    reflexivity. }
  split; [exact Hr|]. split; [exact Ht|]. destruct s as [v ex]. split.
  - intros status. unfold ticketsTool, try_catch, bind, withVerifier.
    fold h. rewrite Ht. reflexivity.
  - intros title description.
    unfold createTicketTool, try_catch, bind, withVerifier.
    fold h. rewrite Ht. reflexivity.
Qed.
End issuer.

Lemma untrusted_issuer_rejected_witness :
  createTicketTool
    (makeAccessTokenVerifier VerifyAssertion.demo_jwtVerify
       "https://token-service.local" "http://localhost:8787/.well-known/jwks.json"
       "https://tools.local/tickets" 200)
    (λ title description agentId, (title, description, agentId))
    "tok" "Printer on fire" None {| verifier := ∅; executed := [] |}
  = (inl (Error "Authentication failed: Token service required - direct JWT not accepted for security"),
     {| verifier := ∅; executed := [] |}).
Proof.
  destruct (untrusted_issuer_rejected (TicketList := unit)
              VerifyAssertion.demo_jwtVerify
              "https://token-service.local"
              "http://localhost:8787/.well-known/jwks.json"
              "https://tools.local/tickets" 200 (λ _ _, ())
              (λ title description agentId, (title, description, agentId))
              "tok" _ _ {| verifier := ∅; executed := [] |} eq_refl)
    as (_ & _ & _ & Hw).
  - intros [= ].
  - apply Hw.
Defined.

End IssuerPolicy.

(** ** The helpdesk agent's configuration *)

Module Configuration.
Import HelpdeskAgent.

Section config.
Variable parseSegment : string → option Jose.JWTPayload.
Variable exchangeForAccessToken : ExchangeArgs → Z → (exn + string) * Z.

Local Notation "'getAccessToken'" :=
  (HelpdeskAgent.getAccessToken parseSegment exchangeForAccessToken).

(** C9 (amended): the last revision of getAccessToken fails at first use,
    before any cache lookup or exchange, when the private key path, the
    agent identifier or the Token Service URL is absent or empty.  The
    first revision replaces each of the three by its built-in default, and
    the tools replace an absent audience or key-distribution URL by
    theirs. *)
Theorem configuration_handling (env : gmap string string)
    targetAudience scopes w :
  (truthy_str (env !! "HELPDESK_PRIVATE_JWK_PATH") = false →
     getAccessToken env targetAudience scopes w =
       (inl (Error
          "HELPDESK_PRIVATE_JWK_PATH environment variable is required"),
        w)) ∧
  (truthy_str (env !! "HELPDESK_PRIVATE_JWK_PATH") = true →
   truthy_str (env !! "HELPDESK_AGENT_ID") = false →
     getAccessToken env targetAudience scopes w =
       (inl (Error "HELPDESK_AGENT_ID environment variable is required"),
        w)) ∧
  (truthy_str (env !! "HELPDESK_PRIVATE_JWK_PATH") = true →
   truthy_str (env !! "HELPDESK_AGENT_ID") = true →
   truthy_str (env !! "TOKEN_SERVICE_URL") = false →
     getAccessToken env targetAudience scopes w =
       (inl (Error "TOKEN_SERVICE_URL environment variable is required"),
        w)) ∧
  (truthy_str (env !! "HELPDESK_PRIVATE_JWK_PATH") = false →
     cfg_privateJwkPath (config_defaults env) =
       "/home/brucec/techplay2/sandbox/auth-template-hackathon-v0/secrets/a1-ed25519-2025-08-15-d0a5e088.private.jwk.json") ∧
  (truthy_str (env !! "HELPDESK_AGENT_ID") = false →
     cfg_agentId (config_defaults env) = "agent://demo/a1") ∧
  (truthy_str (env !! "TOKEN_SERVICE_URL") = false →
     cfg_tokenServiceUrl (config_defaults env) = "http://localhost:8787") ∧
  (env !! "TICKETS_AUD" = None →
     (TicketsTool.verifyAccessToken_config env).2
       = "https://tools.local/tickets" ∧
     (TicketsTool.verifyDirectJWT_config env).2
       = "https://tools.local/tickets") ∧
  (env !! "TOKEN_SERVICE_JWKS_URL" = None →
     (TicketsTool.verifyAccessToken_config env).1
       = "http://localhost:8787/.well-known/jwks.json") ∧
  (env !! "JWKS_URL" = None →
     (TicketsTool.verifyDirectJWT_config env).1
       = "http://localhost:8787/.well-known/jwks.json").
Proof.
  unfold HelpdeskAgent.getAccessToken, config_required, config_defaults,
    env_or_else, TicketsTool.verifyAccessToken_config,
    TicketsTool.verifyDirectJWT_config, TicketsTool.env_or, throw.
  repeat match goal with |- _ ∧ _ => split end.
  - intros ->. reflexivity.
  - intros -> ->. reflexivity.
  - intros -> -> ->. reflexivity.
  - cbn [cfg_privateJwkPath].
    destruct (env !! "HELPDESK_PRIVATE_JWK_PATH") as [v|]; [|reflexivity].
    simpl. destruct (String.eqb v ""); [reflexivity|discriminate].
  - cbn [cfg_agentId]. destruct (env !! "HELPDESK_AGENT_ID") as [v|];
      [|reflexivity].
    simpl. destruct (String.eqb v ""); [reflexivity|discriminate].
  - cbn [cfg_tokenServiceUrl].
    destruct (env !! "TOKEN_SERVICE_URL") as [v|]; [|reflexivity].
    simpl. destruct (String.eqb v ""); [reflexivity|discriminate].
  - cbn [snd]. intros ->. split; reflexivity.
  - cbn [fst]. intros ->. reflexivity.
  - cbn [fst]. intros ->. reflexivity.
Qed.
End config.

Lemma demo_env_lookups :
  demo_env !! "HELPDESK_PRIVATE_JWK_PATH" = Some "secrets/a1.private.jwk.json"
  ∧ demo_env !! "HELPDESK_AGENT_ID" = Some "agent://worf"
  ∧ demo_env !! "TOKEN_SERVICE_URL" = None.
Proof. unfold demo_env. repeat split; by simplify_map_eq. Defined.

Lemma configuration_handling_witness :
  HelpdeskAgent.getAccessToken demo_parseSegment demo_exchange demo_env
    "https://tools.local/tickets" ["tickets.read"]
    {| clock := 0; tokenCache := ∅; exchangeLog := [] |}
  = (inl (Error "TOKEN_SERVICE_URL environment variable is required"),
     {| clock := 0; tokenCache := ∅; exchangeLog := [] |}).
Proof.
  destruct demo_env_lookups as (Hp & Ha & Hu).
  destruct (configuration_handling demo_parseSegment demo_exchange demo_env
              "https://tools.local/tickets" ["tickets.read"]
              {| clock := 0; tokenCache := ∅; exchangeLog := [] |})
    as (_ & _ & Hw & _).
  apply Hw.
  - rewrite Hp. reflexivity.
  - rewrite Ha. reflexivity.
  - rewrite Hu. reflexivity.
Defined.

(** C9 as stated fails: with nothing configured the tools' verifiers are
    built for the default audience and key-distribution URL, and the first
    revision of getAccessToken goes on to exchange under the default agent
    identifier instead of failing. *)
Lemma configuration_defaults_used :
  TicketsTool.verifyAccessToken_config ∅
    = ("http://localhost:8787/.well-known/jwks.json",
       "https://tools.local/tickets") ∧
  TicketsTool.verifyDirectJWT_config ∅
    = ("http://localhost:8787/.well-known/jwks.json",
       "https://tools.local/tickets") ∧
  ∃ w, getAccessToken_defaults demo_parseSegment demo_exchange ∅
         "https://tools.local/tickets" ["tickets.read"]
         {| clock := 0; tokenCache := ∅; exchangeLog := [] |}
       = (inr "hdr.exp900.sig", w) ∧
       agentId <$> (fst <$> exchangeLog w) = ["agent://demo/a1"].
Proof.
  split; [reflexivity|]. split; [reflexivity|].
  eexists. split; reflexivity.
Qed.

End Configuration.

(** ** The access-token cache *)

Module TokenCache.
Import HelpdeskAgent.

(** *** The order used by [sort] *)

Lemma compare_le_trans (a b c : string) :
  String.compare a b ≠ Gt → String.compare b c ≠ Gt →
  String.compare a c ≠ Gt.
Proof.
  revert b c. induction a as [|x a IH]; intros b c Hab Hbc.
  - destruct c; discriminate.
  - destruct b as [|y b]; [exfalso; apply Hab; reflexivity|].
    destruct c as [|z c]; [exfalso; apply Hbc; reflexivity|].
    cbn [String.compare] in *. unfold Ascii.compare in *.
    destruct (N.compare_spec (N_of_ascii x) (N_of_ascii y)) as [E1|L1|G1];
      [| |exfalso; apply Hab; reflexivity].
    + rewrite E1.
      destruct (N.compare_spec (N_of_ascii y) (N_of_ascii z));
        [apply (IH b c Hab Hbc)|discriminate|exact Hbc].
    + destruct (N.compare_spec (N_of_ascii y) (N_of_ascii z)) as [E2|L2|G2];
        [| |exfalso; apply Hbc; reflexivity].
      * rewrite <- E2. rewrite (proj2 (N.compare_lt_iff _ _) L1).
        discriminate.
      * rewrite (proj2 (N.compare_lt_iff _ _) (N.lt_trans _ _ _ L1 L2)).
        discriminate.
Qed.

Lemma str_le_compare (a b : string) : str_le a b ↔ String.compare a b ≠ Gt.
Proof.
  unfold str_le, String.leb. destruct (String.compare a b); split;
    intros H; try reflexivity; try discriminate. exfalso; apply H; reflexivity.
Qed.

Global Instance str_le_trans : Transitive str_le.
Proof.
  intros a b c. rewrite !str_le_compare. apply compare_le_trans.
Qed.

Global Instance str_le_antisymm : AntiSymm (=) str_le.
Proof. intros a b. apply String.leb_antisym. Qed.

Global Instance str_le_total : Total str_le.
Proof. intros a b. apply String.leb_total. Qed.

(** The sorted array depends only on the elements and their
    multiplicities. *)
Lemma sort_Permutation (l1 l2 : list string) :
  l1 ≡ₚ l2 → sort l1 = sort l2.
Proof.
  intros Hp. unfold sort.
  apply (Sorted_unique str_le); try apply Sorted_merge_sort; try apply _.
  rewrite !merge_sort_Permutation. exact Hp.
Qed.

Lemma sort_elem_of (l : list string) (s : string) : s ∈ sort l ↔ s ∈ l.
Proof. unfold sort. rewrite merge_sort_Permutation. reflexivity. Qed.

(** *** The cache key separates plain scope names *)

Lemma has_char_app (c : ascii) (a b : string) :
  has_char c (a +:+ b) = has_char c a || has_char c b.
Proof.
  induction a as [|d a IH]; [reflexivity|].
  change (String d a +:+ b) with (String d (a +:+ b)).
  cbn [has_char]. rewrite IH, orb_assoc. reflexivity.
Qed.

Lemma string_app_nil_r (s : string) : s +:+ "" = s.
Proof.
  induction s as [|c s IH]; [reflexivity|].
  change (String c s +:+ "") with (String c (s +:+ "")). by rewrite IH.
Qed.

(** What follows the first element in a joined array. *)
Lemma join_cons (x : string) (l : list string) :
  join "," (x :: l) =
    x +:+ match l with [] => "" | _ :: _ => "," +:+ join "," l end.
Proof. destruct l; [symmetry; apply string_app_nil_r|reflexivity]. Qed.

Lemma join_no_colon (l : list string) :
  Forall plain l → has_char ":" (join "," l) = false.
Proof.
  induction 1 as [|x l (_ & _ & Hx) _ IH]; [reflexivity|].
  rewrite join_cons, has_char_app, Hx. destruct l; [reflexivity|].
  rewrite has_char_app, IH. reflexivity.
Qed.

Lemma split_last_colon (a1 a2 j1 j2 : string) :
  has_char ":" j1 = false → has_char ":" j2 = false →
  a1 +:+ ":" +:+ j1 = a2 +:+ ":" +:+ j2 → a1 = a2 ∧ j1 = j2.
Proof.
  intros H1 H2. revert a2.
  induction a1 as [|c a1 IH]; intros [|d a2] E.
  - injection E as E. auto.
  - injection E as _ E. change (j1 = a2 +:+ ":" +:+ j2) in E.
    rewrite E, has_char_app in H1.
    rewrite orb_true_r in H1. discriminate.
  - injection E as _ E. change (a1 +:+ ":" +:+ j1 = j2) in E.
    rewrite <- E, has_char_app in H2.
    rewrite orb_true_r in H2. discriminate.
  - injection E as -> E. destruct (IH _ E) as [-> ->]. auto.
Qed.

Lemma comma_split (x1 x2 r1 r2 : string) :
  has_char "," x1 = false → has_char "," x2 = false →
  (r1 = "" ∨ ∃ r, r1 = String "," r) →
  (r2 = "" ∨ ∃ r, r2 = String "," r) →
  x1 +:+ r1 = x2 +:+ r2 → x1 = x2 ∧ r1 = r2.
Proof.
  revert x2. induction x1 as [|c x1 IH]; intros [|d x2] H1 H2 Hr1 Hr2 E.
  - auto.
  - change ("" +:+ r1) with r1 in E.
    change (String d x2 +:+ r2) with (String d (x2 +:+ r2)) in E.
    destruct Hr1 as [->|[r ->]]; [discriminate|].
    injection E as <- _. discriminate H2.
  - change ("" +:+ r2) with r2 in E.
    change (String c x1 +:+ r1) with (String c (x1 +:+ r1)) in E.
    destruct Hr2 as [->|[r ->]]; [discriminate|].
    injection E as -> _. discriminate H1.
  - injection E as -> E. cbn [has_char] in H1, H2.
    apply orb_false_iff in H1 as [_ H1]. apply orb_false_iff in H2 as [_ H2].
    destruct (IH _ H1 H2 Hr1 Hr2 E) as [-> ->]. auto.
Qed.

Lemma join_inj (l1 l2 : list string) :
  Forall plain l1 → Forall plain l2 →
  join "," l1 = join "," l2 → l1 = l2.
Proof.
  intros H1. revert l2.
  induction H1 as [|x l1 (Hx0 & Hx & _) Hl1 IH]; intros l2 H2 E.
  - destruct H2 as [|y l2 (Hy0 & _) _]; [reflexivity|].
    rewrite join_cons in E. destruct y; [contradiction|discriminate].
  - destruct H2 as [|y l2 (Hy0 & Hy & _) Hl2].
    { rewrite join_cons in E. destruct x; [contradiction|discriminate]. }
    rewrite !join_cons in E.
    apply comma_split in E as [-> E]; [|assumption|assumption| |].
    + f_equal. destruct l1 as [|a l1], l2 as [|b l2];
        [reflexivity|discriminate|discriminate|].
      injection E as E. apply IH; assumption.
    + destruct l1; [left; reflexivity|right; eexists; reflexivity].
    + destruct l2; [left; reflexivity|right; eexists; reflexivity].
Qed.

Lemma cacheKey_inj (a1 a2 : string) (l1 l2 : list string) :
  Forall plain l1 → Forall plain l2 →
  a1 +:+ ":" +:+ join "," l1 = a2 +:+ ":" +:+ join "," l2 →
  a1 = a2 ∧ l1 = l2.
Proof.
  intros H1 H2 E.
  apply split_last_colon in E as [-> E]; auto using join_no_colon.
  split; [reflexivity|]. by apply join_inj.
Qed.

Lemma sort_plain (l : list string) : Forall plain l → Forall plain (sort l).
Proof.
  rewrite !Forall_forall. intros H s Hs. apply H, sort_elem_of, Hs.
Qed.

Lemma app_singleton_neq {A} (l : list A) (x : A) : l ++ [x] ≠ l.
Proof.
  intros E. apply (f_equal length) in E. rewrite length_app in E.
  simpl in E. lia.
Qed.

(** *** The model on the repository's own requests *)

Example cacheKey_sorted :
  cacheKey "https://tools.local/tickets" ["tickets.write"; "tickets.read"]
  = "https://tools.local/tickets:tickets.read,tickets.write".
Proof. reflexivity. Qed.

Example tokenExpMs_demo :
  tokenExpMs demo_parseSegment "hdr.exp900.sig" = Some 900000 ∧
  tokenExpMs demo_parseSegment "not-a-jwt" = None.
Proof. split; reflexivity. Qed.

(** A token for tickets.read is fetched and cached until 240005 ms (four
    minutes after the exchange settled); a second request for the same
    scope reuses it without an exchange; a request for tickets.write
    exchanges again and is cached under its own key, the first entry
    staying as it was. *)
Example read_then_read_then_write :
  let aud := "https://tools.local/tickets" in
  let get := getAccessTokenWith demo_parseSegment scoped_exchange
               demo_config aud in
  let w0 := {| clock := 0; tokenCache := ∅; exchangeLog := [] |} in
  ∃ w1 w2,
    get ["tickets.read"] w0 = (inr "hdr.exp900.tickets.read", w1) ∧
    tokenCache w1 !! cacheKey aud ["tickets.read"]
      = Some {| token := "hdr.exp900.tickets.read"; expires := 240005 |} ∧
    get ["tickets.read"] w1 = (inr "hdr.exp900.tickets.read", w1) ∧
    get ["tickets.write"] w1 = (inr "hdr.exp900.tickets.write", w2) ∧
    length (exchangeLog w2) = 2%nat ∧
    tokenCache w2 !! cacheKey aud ["tickets.read"]
      = tokenCache w1 !! cacheKey aud ["tickets.read"] ∧
    token <$> tokenCache w2 !! cacheKey aud ["tickets.write"]
      = Some "hdr.exp900.tickets.write".
Proof. eexists _, _. repeat split; reflexivity. Qed.

Section cache.
Variable parseSegment : string → option Jose.JWTPayload.
Variable exchangeForAccessToken : ExchangeArgs → Z → (exn + string) * Z.

Local Notation "'getAccessTokenWith'" :=
  (HelpdeskAgent.getAccessTokenWith parseSegment exchangeForAccessToken).
Local Notation "'lookupCache'" := (HelpdeskAgent.lookupCache parseSegment).
Local Notation "'tokenExpMs'" := (HelpdeskAgent.tokenExpMs parseSegment).

(** C6: two requests for the same audience whose scope arrays are equal
    after sorting - in particular any two orderings of the same scopes -
    compute the same cache key, and the whole call behaves identically:
    same cache entry read or written, same exchange arguments. *)
Theorem cache_key_order_insensitive cfg targetAudience scopes1 scopes2 w :
  (scopes1 ≡ₚ scopes2 → sort scopes1 = sort scopes2) ∧
  (sort scopes1 = sort scopes2 →
     cacheKey targetAudience scopes1 = cacheKey targetAudience scopes2 ∧
     getAccessTokenWith cfg targetAudience scopes1 w
       = getAccessTokenWith cfg targetAudience scopes2 w).
Proof.
  split; [apply sort_Permutation|].
  intros Hs.
  assert (cacheKey targetAudience scopes1 = cacheKey targetAudience scopes2)
    as Hk by (unfold cacheKey; rewrite Hs; reflexivity).
  split; [exact Hk|].
  unfold HelpdeskAgent.getAccessTokenWith, exchangeArgs.
  rewrite Hk, Hs. reflexivity.
Qed.

Local Notation "'usable'" := (HelpdeskAgent.usable parseSegment).

Lemma lookupCache_usable key w :
  usable key w →
  ∃ c, tokenCache w !! key = Some c ∧ lookupCache key w = inl (token c).
Proof.
  intros (c & e & Hc & Hlt & He & He0 & Hgt). exists c. split; [exact Hc|].
  unfold HelpdeskAgent.lookupCache. rewrite Hc.
  rewrite (proj2 (Z.ltb_lt _ _) Hlt), He, (truthy_num_Some _ He0).
  change (default 0 (Some e)) with e. cbn [andb]. rewrite bool_decide_eq_true_2 by exact Hgt.
  reflexivity.
Qed.

Lemma lookupCache_unusable key w :
  ¬ usable key w →
  lookupCache key w =
    inr match tokenCache w !! key with
        | Some c =>
          if clock w <? expires c then delete key (tokenCache w)
          else tokenCache w
        | None => tokenCache w
        end.
Proof.
  intros Hn. unfold HelpdeskAgent.lookupCache.
  destruct (tokenCache w !! key) as [c|] eqn:Hc; [|reflexivity].
  destruct (Z.ltb_spec (clock w) (expires c)) as [Hlt|]; [|reflexivity].
  destruct (truthy_num (tokenExpMs (token c))) eqn:Ht; [|reflexivity].
  apply truthy_num_inv in Ht as (e & He & He0). rewrite He.
  change (default 0 (Some e)) with e. cbn [andb].
  rewrite bool_decide_eq_false_2; [reflexivity|].
  intros Hgt. apply Hn. exists c, e. auto.
Qed.

Lemma lookupCache_inl key w tok :
  lookupCache key w = inl tok →
  usable key w ∧ ∃ c, tokenCache w !! key = Some c ∧ token c = tok.
Proof.
  unfold HelpdeskAgent.lookupCache.
  destruct (tokenCache w !! key) as [c|] eqn:Hc; [|discriminate].
  destruct (Z.ltb_spec (clock w) (expires c)) as [Hlt|]; [|discriminate].
  destruct (truthy_num (tokenExpMs (token c))) eqn:Ht; [|discriminate].
  apply truthy_num_inv in Ht as (e & He & He0). rewrite He.
  change (default 0 (Some e)) with e. cbn [andb].
  destruct (bool_decide_reflect (e > clock w + 30 * 1000)) as [Hgt|];
    [|discriminate].
  intros [= <-]. split; [exists c, e; auto|eauto].
Qed.

(** The hit rule on an arbitrary cache: the cached token is returned,
    with no exchange and the cache untouched, if and only if the entry is
    [usable].  Otherwise one fresh exchange is performed; if it succeeds
    its token replaces the entry, and if it fails the entry is gone when
    it had passed the [expires] check, and is still in place when it had
    not. *)
Lemma cache_hit_rule cfg targetAudience scopes w :
  let key := cacheKey targetAudience scopes in
  let args := exchangeArgs cfg targetAudience scopes in
  let outcome := (exchangeForAccessToken args (clock w)).1 in
  (usable key w ↔
     ∃ c, tokenCache w !! key = Some c ∧
          getAccessTokenWith cfg targetAudience scopes w = (inr (token c), w))
  ∧
  (¬ usable key w →
     ∃ w', getAccessTokenWith cfg targetAudience scopes w = (outcome, w') ∧
           exchangeLog w' = exchangeLog w ++ [(args, outcome)] ∧
           match outcome with
           | inr accessToken =>
             token <$> tokenCache w' !! key = Some accessToken
           | inl _ =>
             tokenCache w' !! key =
               c ← tokenCache w !! key;
               if clock w <? expires c then None else Some c
           end).
Proof.
  intros key args outcome.
  assert (¬ usable key w →
     ∃ w', getAccessTokenWith cfg targetAudience scopes w = (outcome, w') ∧
           exchangeLog w' = exchangeLog w ++ [(args, outcome)] ∧
           match outcome with
           | inr accessToken =>
             token <$> tokenCache w' !! key = Some accessToken
           | inl _ =>
             tokenCache w' !! key =
               c ← tokenCache w !! key;
               if clock w <? expires c then None else Some c
           end) as Hmiss.
  { intros Hn. unfold HelpdeskAgent.getAccessTokenWith.
    fold key. rewrite (lookupCache_unusable _ _ Hn). fold args.
    subst outcome. destruct (exchangeForAccessToken args (clock w)) as [[e|tok] t];
      cbn [fst]; eexists; (split; [reflexivity|]); cbn [exchangeLog tokenCache];
      (split; [reflexivity|]).
    - destruct (tokenCache w !! key) as [c|] eqn:Hc; cbn [mbind option_bind];
        [|exact Hc].
      destruct (clock w <? expires c); [apply lookup_delete_eq|exact Hc].
    - rewrite lookup_insert_eq. reflexivity. }
  split; [split|exact Hmiss].
  - intros Hu. destruct (lookupCache_usable _ _ Hu) as (c & Hc & Hl).
    exists c. split; [exact Hc|].
    unfold HelpdeskAgent.getAccessTokenWith. fold key. rewrite Hl. reflexivity.
  - intros (c & Hc & Hr). revert Hr.
    unfold HelpdeskAgent.getAccessTokenWith. fold key.
    destruct (lookupCache key w) as [tok|cache] eqn:Hl.
    { intros _. exact (proj1 (lookupCache_inl _ _ _ Hl)). }
    destruct (exchangeForAccessToken _ _) as [[e|tok] t]; intros Hr;
      apply (f_equal (λ r, exchangeLog r.2)) in Hr; cbn in Hr;
      exfalso; exact (app_singleton_neq _ _ Hr).
Qed.

Lemma lookupCache_inr key w cache :
  lookupCache key w = inr cache →
  ∀ k c, cache !! k = Some c → tokenCache w !! k = Some c.
Proof.
  unfold HelpdeskAgent.lookupCache. intros H k c Hk.
  assert (cache = tokenCache w ∨ cache = delete key (tokenCache w))
    as [->| ->].
  { destruct (tokenCache w !! key) as [e|]; [|left; congruence].
    destruct (clock w <? expires e); [|left; congruence].
    destruct (_ && _); [discriminate|right; congruence]. }
  - exact Hk.
  - apply lookup_delete_Some in Hk as [_ Hk]. exact Hk.
Qed.

(** Under [cache_inv], for plain scope names: a token served from the
    cache was obtained by an exchange for the same audience and exactly
    the scope set now requested, and a request that no logged exchange
    covers performs a fresh exchange.  The invariant is kept by the
    call. *)
Lemma cached_token_covers_request cfg targetAudience scopes w r w' :
  cache_inv w → Forall plain scopes →
  getAccessTokenWith cfg targetAudience scopes w = (r, w') →
  cache_inv w' ∧
  (exchangeLog w' = exchangeLog w →
     ∃ tok args,
       r = inr tok ∧ (args, inr tok) ∈ exchangeLog w ∧
       HelpdeskAgent.targetAudience args = targetAudience ∧
       ∀ s, s ∈ scopes ↔ s ∈ HelpdeskAgent.scopes args) ∧
  ((∀ args tok, (args, inr tok) ∈ exchangeLog w →
      ¬ (∀ s, s ∈ scopes → s ∈ HelpdeskAgent.scopes args)) →
     exchangeLog w' =
       exchangeLog w ++ [(exchangeArgs cfg targetAudience scopes, r)]).
Proof.
  intros Hinv Hplain. unfold HelpdeskAgent.getAccessTokenWith.
  destruct (lookupCache (cacheKey targetAudience scopes) w)
    as [tok|cache] eqn:Hl.
  - intros [= <- <-].
    destruct (lookupCache_inl _ _ _ Hl) as (_ & c & Hc & <-).
    destruct (Hinv _ _ Hc) as (args & Hin & Hpl & Hkey).
    apply cacheKey_inj in Hkey as [Haud Hsc]; auto using sort_plain.
    assert (∀ s, s ∈ scopes ↔ s ∈ HelpdeskAgent.scopes args) as Hsame
      by (intros s; rewrite Hsc; symmetry; apply sort_elem_of).
    split; [exact Hinv|]. split.
    + intros _. exists (token c), args. auto.
    + intros Hnone. exfalso. apply (Hnone _ _ Hin). intros s. apply Hsame.
  - pose proof (lookupCache_inr _ _ _ Hl) as Hsub.
    assert (∀ x k c, cache !! k = Some c →
              ∃ args, (args, inr (token c)) ∈ exchangeLog w ++ [x] ∧
                      Forall plain (HelpdeskAgent.scopes args) ∧
                      HelpdeskAgent.targetAudience args +:+ ":" +:+
                        join "," (HelpdeskAgent.scopes args) = k) as Hold.
    { intros x k c Hk. destruct (Hinv _ _ (Hsub _ _ Hk)) as (a & Hin & H).
      exists a. split; [|exact H]. apply elem_of_app. left. exact Hin. }
    destruct (exchangeForAccessToken _ _) as [[e|tok] t]; intros [= <- <-];
      cbn [exchangeLog tokenCache].
    + split; [|split].
      * intros k c Hk. exact (Hold _ k c Hk).
      * intros E. exfalso. exact (app_singleton_neq _ _ E).
      * reflexivity.
    + split; [|split].
      * intros k c. cbn [tokenCache exchangeLog].
        destruct (decide (cacheKey targetAudience scopes = k)) as [<-|Hne].
        -- rewrite lookup_insert_eq. intros [= <-].
           exists (exchangeArgs cfg targetAudience scopes).
           split; [apply elem_of_app; right; apply list_elem_of_singleton;
                   reflexivity|].
           split; [apply sort_plain, Hplain|reflexivity].
        -- rewrite lookup_insert_ne by exact Hne. apply Hold.
      * intros E. exfalso. exact (app_singleton_neq _ _ E).
      * reflexivity.
Qed.
End cache.

Lemma cache_inv_empty (t : Z) :
  cache_inv {| clock := t; tokenCache := ∅; exchangeLog := [] |}.
Proof.
  intros k c Hk. cbn [tokenCache] in Hk. rewrite lookup_empty in Hk.
  discriminate.
Defined.

Lemma plain_tickets_read : Forall plain ["tickets.read"].
Proof.
  constructor; [|constructor]. split; [discriminate|split; reflexivity].
Defined.

Lemma cache_key_order_insensitive_witness :
  cacheKey "https://tools.local/tickets" ["write"; "read"]
  = cacheKey "https://tools.local/tickets" ["read"; "write"].
Proof.
  destruct (cache_key_order_insensitive demo_parseSegment demo_exchange
              demo_config "https://tools.local/tickets"
              ["write"; "read"] ["read"; "write"]
              {| clock := 0; tokenCache := ∅; exchangeLog := [] |})
    as [_ Hw].
  apply Hw. reflexivity.
Defined.

End TokenCache.

(** * Further properties of the sources *)

(** ** The assertion verifier, call by call and over a run *)

Module VerifierFacts.
Import Jose VerifyAssertion VerifierRuns.

Section facts.
Variable jwtVerify :
  string → string → string → exn + (JWTPayload * ProtectedHeader).
Variables jwksUrl expectedAudience : string.

Local Notation "'verify'" :=
  (makeVerifier jwtVerify jwksUrl expectedAudience).
Local Notation "'presents'" :=
  (VerifyAssertion.presents jwtVerify jwksUrl expectedAudience).
Local Notation "'verifyAll'" :=
  (VerifierRuns.verifyAll jwtVerify jwksUrl expectedAudience).

Lemma verify_accept_inv h (cache : gmap string Z) v cache' :
  verify h cache = (inr v, cache') →
  ∃ hs i e j k,
    h = Some hs ∧ presents hs i e j k ∧ cache !! j = None ∧
    v = mkVerified i k ∧ cache' = <[j := e]> cache.
Proof.
  unfold makeVerifier. destruct h as [hs|]; [|discriminate].
  destruct (startsWith hs "Bearer ") eqn:Hb; cbn [negb]; [|discriminate].
  destruct (jwtVerify _ _ _) as [?|[p hd]] eqn:Hv; [discriminate|].
  destruct (truthy_str (iss p)) eqn:Hi; cbn [negb orb]; [|discriminate].
  destruct (bool_decide_reflect (iss p = sub p)) as [Hs|]; cbn [negb];
    [|discriminate].
  destruct (truthy_num (exp p)) eqn:He; cbn [negb orb]; [|discriminate].
  destruct (truthy_str (jti p)) eqn:Hj; cbn [negb]; [|discriminate].
  apply truthy_str_inv in Hi as (i & Hi & Hi0).
  apply truthy_num_inv in He as (e & He & He0).
  apply truthy_str_inv in Hj as (j & Hj & Hj0).
  rewrite Hi, He, Hj.
  destruct (cache !! j) eqn:Hc; [discriminate|]. intros [= <- <-].
  exists hs, i, e, j, (kid hd). repeat split; try done.
  exists p, hd. rewrite <- Hs, Hi. repeat split; done.
Qed.

(** X1: the verifier accepts a header exactly when it carries a bearer
    token that jwtVerify accepts, whose issuer equals its subject and is
    not empty, whose exp is present and not 0, and whose jti is present,
    not empty and not yet in the replay cache; it then returns that issuer
    with the header's kid, and records jti -> exp. *)
Theorem verify_accepts_iff h (cache : gmap string Z) v cache' :
  verify h cache = (inr v, cache') ↔
  ∃ hs i e j k,
    h = Some hs ∧ presents hs i e j k ∧ cache !! j = None ∧
    v = mkVerified i k ∧ cache' = <[j := e]> cache.
Proof.
  split; [apply verify_accept_inv|].
  intros (hs & i & e & j & k & -> & Hp & Hc & -> & ->).
  rewrite (ReplayGuard.verify_presents _ _ _ _ _ _ _ _ _ Hp), Hc.
  reflexivity.
Qed.

Lemma verify_error_cache h (cache : gmap string Z) e cache' :
  verify h cache = (inl e, cache') → cache' = cache.
Proof.
  unfold makeVerifier. destruct h as [hs|]; [|by intros [= _ <-]].
  destruct (negb _); [by intros [= _ <-]|].
  destruct (jwtVerify _ _ _) as [?|[p hd]]; [by intros [= _ <-]|].
  destruct (_ || _); [by intros [= _ <-]|].
  destruct (_ || _); [by intros [= _ <-]|].
  destruct (iss p), (exp p), (jti p) as [j|]; try by intros [= _ <-].
  destruct (cache !! j); [by intros [= _ <-]|discriminate].
Qed.

Lemma verify_subseteq h (cache : gmap string Z) :
  cache ⊆ (verify h cache).2.
Proof.
  destruct (verify h cache) as [[e|v] cache'] eqn:H; cbn [snd].
  - by rewrite (verify_error_cache _ _ _ _ H).
  - apply verify_accept_inv in H as (_ & _ & e & j & _ & _ & _ & Hc & _ & ->).
    by apply insert_subseteq.
Qed.

Lemma verifyAll_subseteq headers (cache : gmap string Z) :
  cache ⊆ (verifyAll headers cache).2.
Proof.
  revert cache. induction headers as [|h rest IH]; intros cache; [done|].
  cbn [VerifierRuns.verifyAll].
  pose proof (verify_subseteq h cache) as H1.
  destruct (verify h cache) as [r c]. cbn [snd] in H1.
  pose proof (IH c) as H2. destruct (verifyAll rest c) as [rs final].
  cbn [snd] in *. by etrans.
Qed.

(** X2: a rejected verification leaves the replay cache exactly as it
    was, and no verification ever removes or changes a record: after any
    call, and after any run of calls, every record that was in the cache
    is still there with the same expiry. *)
Theorem replay_cache_only_grows h headers (cache : gmap string Z) :
  (∀ e, (verify h cache).1 = inl e → (verify h cache).2 = cache) ∧
  cache ⊆ (verify h cache).2 ∧
  cache ⊆ (verifyAll headers cache).2 ∧
  length (verifyAll headers cache).1 = length headers.
Proof.
  split; [|split; [apply verify_subseteq|split; [apply verifyAll_subseteq|]]].
  - intros e He. destruct (verify h cache) as [r c] eqn:H. cbn [fst snd] in *.
    subst r. exact (verify_error_cache _ _ _ _ H).
  - revert cache. induction headers as [|x rest IH]; intros cache; [done|].
    cbn [VerifierRuns.verifyAll]. destruct (verify x cache) as [r c].
    specialize (IH c). destruct (verifyAll rest c) as [rs final].
    cbn [fst length] in *. by rewrite IH.
Qed.

(** X3: once a token with identifier jti has been accepted, every later
    token carrying that jti is rejected with "Replay detected", whatever
    other verifications - accepted or rejected - happened in between. *)
Theorem replay_is_permanent h i e j k h' i' e' k' between
    (cache : gmap string Z) v :
  presents h i e j k →
  presents h' i' e' j k' →
  (verify (Some h) cache).1 = inr v →
  let later := (verifyAll between (verify (Some h) cache).2).2 in
  verify (Some h') later = (inl (Error "Replay detected"), later).
Proof.
  intros Hp Hp' Hacc later.
  destruct (verify (Some h) cache) as [r c] eqn:Hv. cbn [fst snd] in *.
  subst r. apply verify_accept_inv in Hv
    as (hs & i0 & e0 & j0 & k0 & [= <-] & Hp0 & Hc & _ & ->).
  assert (j0 = j) as ->.
  { destruct Hp as (_ & p & hd & Hv1 & _ & _ & _ & _ & _ & Hj & _).
    destruct Hp0 as (_ & p0 & hd0 & Hv0 & _ & _ & _ & _ & _ & Hj0 & _).
    rewrite Hv1 in Hv0. injection Hv0 as <- <-. congruence. }
  assert (later !! j = Some e0) as Hl.
  { eapply lookup_weaken; [apply lookup_insert_eq|].
    apply verifyAll_subseteq. }
  rewrite (ReplayGuard.verify_presents _ _ _ _ _ _ _ _ _ Hp'), Hl.
  reflexivity.
Qed.
End facts.

Lemma replay_is_permanent_witness :
  let later :=
    (VerifierRuns.verifyAll demo_jwtVerify "https://keys.local/jwks.json"
       "https://tools.local/tickets" [None; Some "Bearer forged"]
       {["j1" := 300]}).2 in
  makeVerifier demo_jwtVerify "https://keys.local/jwks.json"
    "https://tools.local/tickets" (Some "Bearer tok") later
  = (inl (Error "Replay detected"), later).
Proof.
  exact (replay_is_permanent demo_jwtVerify "https://keys.local/jwks.json"
           "https://tools.local/tickets" "Bearer tok" "agent://demo/a1" 300
           "j1" (Some "k1") "Bearer tok" "agent://demo/a1" 300 (Some "k1")
           [None; Some "Bearer forged"] ∅
           (mkVerified "agent://demo/a1" (Some "k1"))
           ReplayGuard.demo_presents ReplayGuard.demo_presents eq_refl).
Defined.

End VerifierFacts.

(** ** The assertion signer: key sources, failures, identifiers *)

Module SignerFacts.
Import SignAssertion SignedClaims.

Lemma counting_randomUUID_inj (x y : nat) :
  counting_randomUUID x = counting_randomUUID y → x = y.
Proof.
  revert y. induction x as [|x IH]; intros [|y] H; try discriminate.
  - reflexivity.
  - injection H as H. f_equal. by apply IH.
Qed.

Section facts.
Context {CryptoKey : Type}.
Variable fetch : string → exn + Response.
Variable readJwkFile : string → exn + JwkDocument.
Variable importJWK : Jwk → string → exn + CryptoKey.
Variable sign : SignJWT → CryptoKey → exn + string.
Variable randomUUID : nat → string.

Local Notation "'loadKey'" := (SignAssertion.loadKey fetch readJwkFile).
Local Notation "'makeClientAssertion'" :=
  (SignAssertion.makeClientAssertion
     fetch readJwkFile importJWK sign randomUUID).
Local Notation "'claimsFor'" := (SignedClaims.claimsFor randomUUID).

(** A successful call, read backwards. *)
Lemma makeClientAssertion_inv o w s w' :
  makeClientAssertion o w = (inr s, w') →
  ∃ priv k a key,
    loadKey o = inr (Some priv, Some a) ∧
    kid priv = Some k ∧ k ≠ "" ∧ a ≠ "" ∧
    importJWK priv "EdDSA" = inr key ∧
    sign (claimsFor priv a (audience o) w) key = inr s ∧
    w' = {| clock := clock w; uuid_calls := S (uuid_calls w) |}.
Proof.
  unfold SignAssertion.makeClientAssertion. intros H.
  destruct (loadKey o) as [e|[[priv|] agent]] eqn:Hl; try discriminate.
  destruct (truthy_str (kid priv)) eqn:Hk; cbn [negb] in H; [|discriminate].
  destruct (truthy_str agent) eqn:Ha; cbn [negb] in H; [|discriminate].
  apply truthy_str_inv in Hk as (k & Hk & Hk0).
  apply truthy_str_inv in Ha as (a & -> & Ha0).
  destruct (importJWK priv "EdDSA") as [e|key] eqn:Hi; [discriminate|].
  injection H as Hs <-. exists priv, k, a, key. repeat split; auto.
Qed.

Lemma loadKey_url o resp doc :
  startsWith (privateJwkPath o) "http://"
    || startsWith (privateJwkPath o) "https://" = true →
  fetch (privateJwkPath o) = inr resp → ok resp = true →
  json resp = inr doc →
  loadKey o =
    let priv := match keys doc with
                | Some ks => head ks
                | None => Some (self doc)
                end in
    if truthy_str (agentId o) then inr (priv, agentId o)
    else match priv with
         | Some p => inr (priv, agent_id p)
         | None =>
           inl (TypeError
             "Cannot read properties of undefined (reading 'agent_id')")
         end.
Proof.
  intros Hu Hf Hok Hj. unfold SignAssertion.loadKey.
  rewrite Hu, Hf, Hok, Hj. reflexivity.
Qed.

(** X4: with an http:// or https:// key location the assertion is signed
    with the first key of the served key set (or with the document itself
    when it has no keys array), and it is issued in the name of the
    caller's agentId when one is given and not empty - the key's own
    agent_id is used only otherwise. *)
Theorem url_key_and_identity o w resp doc s w' :
  startsWith (privateJwkPath o) "http://"
    || startsWith (privateJwkPath o) "https://" = true →
  fetch (privateJwkPath o) = inr resp →
  json resp = inr doc →
  makeClientAssertion o w = (inr s, w') →
  ∃ priv key,
    match keys doc with
    | Some ks => head ks = Some priv
    | None => priv = self doc
    end ∧
    importJWK priv "EdDSA" = inr key ∧
    sign (claimsFor priv
            (default "" (or_str (agentId o) (agent_id priv)))
            (audience o) w) key = inr s.
Proof.
  intros Hu Hf Hj Hr.
  apply makeClientAssertion_inv in Hr
    as (priv & k & a & key & Hl & _ & _ & _ & Hi & Hs & _).
  assert (ok resp = true) as Hok.
  { revert Hl. unfold SignAssertion.loadKey. rewrite Hu, Hf.
    destruct (ok resp); [reflexivity|discriminate]. }
  rewrite (loadKey_url _ _ _ Hu Hf Hok Hj) in Hl. cbv zeta in Hl.
  exists priv, key. unfold or_str.
  destruct (truthy_str (agentId o)).
  - injection Hl as Hp Ha. rewrite Ha. cbn [default].
    split; [|split; assumption].
    destruct (keys doc); [exact Hp|congruence].
  - destruct (match keys doc with Some ks => head ks | None => _ end)
      as [p|] eqn:Hp; [|discriminate].
    injection Hl as -> Ha. rewrite Ha. cbn [default].
    split; [|split; assumption].
    destruct (keys doc); [exact Hp|congruence].
Qed.

(** X5: how a remote key location fails.  A rejected fetch or body is
    rethrown as it is; a response that is not ok gives "Failed to fetch
    JWK from <url>: <statusText>"; a key set whose keys array is empty
    ends in a TypeError, with or without an agentId.  In each case no
    identifier is drawn and nothing is signed. *)
Theorem url_failures o w :
  startsWith (privateJwkPath o) "http://"
    || startsWith (privateJwkPath o) "https://" = true →
  (∀ e, fetch (privateJwkPath o) = inl e →
        makeClientAssertion o w = (inl e, w)) ∧
  (∀ resp, fetch (privateJwkPath o) = inr resp → ok resp = false →
     makeClientAssertion o w =
       (inl (Error ("Failed to fetch JWK from " +:+ privateJwkPath o
                    +:+ ": " +:+ statusText resp)), w)) ∧
  (∀ resp e, fetch (privateJwkPath o) = inr resp → ok resp = true →
     json resp = inl e → makeClientAssertion o w = (inl e, w)) ∧
  (∀ resp doc, fetch (privateJwkPath o) = inr resp → ok resp = true →
     json resp = inr doc → keys doc = Some [] →
     ∃ msg, makeClientAssertion o w = (inl (TypeError msg), w)).
Proof.
  intros Hu. unfold SignAssertion.makeClientAssertion.
  repeat match goal with |- _ ∧ _ => split end.
  - intros e Hf. unfold SignAssertion.loadKey. rewrite Hu, Hf. reflexivity.
  - intros resp Hf Hok. unfold SignAssertion.loadKey.
    rewrite Hu, Hf, Hok. reflexivity.
  - intros resp e Hf Hok Hj. unfold SignAssertion.loadKey.
    rewrite Hu, Hf, Hok, Hj. reflexivity.
  - intros resp doc Hf Hok Hj Hk.
    rewrite (loadKey_url _ _ _ Hu Hf Hok Hj), Hk. cbn [head].
    destruct (truthy_str (agentId o)); eexists; reflexivity.
Qed.

(** X6: a successful call draws exactly one identifier and leaves the
    clock alone; so with identifiers that randomUUID never repeats, any
    two assertions the process produces, one after the other, carry
    different jti. *)
Theorem jti_never_reused o1 o2 w1 w2 s1 s2 w1' w2' :
  (∀ x y, randomUUID x = randomUUID y → x = y) →
  makeClientAssertion o1 w1 = (inr s1, w1') →
  (uuid_calls w1' ≤ uuid_calls w2)%nat →
  makeClientAssertion o2 w2 = (inr s2, w2') →
  ∃ jwt1 key1 jwt2 key2,
    sign jwt1 key1 = inr s1 ∧ sign jwt2 key2 = inr s2 ∧
    claim_jti jwt1 = randomUUID (uuid_calls w1) ∧
    claim_jti jwt2 = randomUUID (uuid_calls w2) ∧
    claim_jti jwt1 ≠ claim_jti jwt2 ∧
    uuid_calls w1' = S (uuid_calls w1) ∧ clock w1' = clock w1.
Proof.
  intros Hinj H1 Hle H2.
  apply makeClientAssertion_inv in H1
    as (p1 & _ & a1 & key1 & _ & _ & _ & _ & _ & Hs1 & ->).
  apply makeClientAssertion_inv in H2
    as (p2 & _ & a2 & key2 & _ & _ & _ & _ & _ & Hs2 & ->).
  eexists _, key1, _, key2. split; [exact Hs1|]. split; [exact Hs2|].
  cbn [claim_jti SignedClaims.claimsFor uuid_calls clock] in *.
  repeat split. intros E. apply Hinj in E. lia.
Qed.

(** X21: a JWK Set is unwrapped only when it comes from a URL.  Read from
    a file, a document that carries its keys in a keys array and has no
    kid of its own ends in "Private JWK missing kid", whatever the array
    holds; fetched over http(s), the same document is signed with its
    first key, provided that key has a kid and an agent is known. *)
Theorem key_set_unwrapped_only_from_url path url aud override doc resp
    first others a key w :
  startsWith path "http://" || startsWith path "https://" = false →
  startsWith url "http://" || startsWith url "https://" = true →
  readJwkFile path = inr doc →
  fetch url = inr resp → ok resp = true → json resp = inr doc →
  keys doc = Some (first :: others) →
  truthy_str (kid (self doc)) = false →
  truthy_str (kid first) = true →
  or_str override (agent_id first) = Some a → a ≠ "" →
  importJWK first "EdDSA" = inr key →
  makeClientAssertion (mkOpts path aud override) w
    = (inl (Error "Private JWK missing kid"), w) ∧
  makeClientAssertion (mkOpts url aud override) w
    = (sign (claimsFor first a aud w) key,
       {| clock := clock w; uuid_calls := S (uuid_calls w) |}).
Proof.
  intros Hfile Hurl Hread Hfetch Hok Hjson Hkeys Hnokid Hkid Hagent Ha Himp.
  unfold SignAssertion.makeClientAssertion. split.
  - unfold SignAssertion.loadKey. cbn [privateJwkPath].
    rewrite Hfile, Hread, Hnokid. reflexivity.
  - rewrite (loadKey_url (mkOpts url aud override) _ _ Hurl Hfetch Hok
               Hjson), Hkeys.
    cbn [head agentId]. unfold or_str in Hagent.
    destruct (truthy_str override) eqn:Ht.
    + rewrite Hagent, Hkid, (truthy_str_Some _ Ha), Himp. reflexivity.
    + rewrite Hagent, Hkid, (truthy_str_Some _ Ha), Himp. reflexivity.
Qed.
End facts.

Lemma key_set_unwrapped_only_from_url_witness :
  makeClientAssertion key_set_fetch key_set_file demo_importJWK demo_sign
    demo_randomUUID
    (mkOpts "secrets/set.json" "https://tools.local/tickets" None)
    {| clock := 0; uuid_calls := 0 |}
  = (inl (Error "Private JWK missing kid"),
     {| clock := 0; uuid_calls := 0 |}).
Proof.
  exact (proj1 (key_set_unwrapped_only_from_url key_set_fetch key_set_file
                  demo_importJWK demo_sign demo_randomUUID
                  "secrets/set.json" "http://localhost:8787/jwks.json"
                  "https://tools.local/tickets" None key_set _ _ []
                  "agent://first" "d=1" {| clock := 0; uuid_calls := 0 |}
                  eq_refl eq_refl eq_refl eq_refl eq_refl eq_refl eq_refl
                  eq_refl eq_refl eq_refl ltac:(discriminate) eq_refl)).
Defined.

Lemma url_key_and_identity_witness :
  ∃ priv,
    demo_sign (claimsFor demo_randomUUID priv "agent://override"
                 "https://tools.local/tickets"
                 {| clock := 1755286299; uuid_calls := 0 |}) "d=1"
    = inr "agent://override|3f2c0c5e-0000-4000-8000-000000000000" ∧
    kid priv = Some "k-first".
Proof.
  destruct (url_key_and_identity jwks_fetch demo_readJwkFile demo_importJWK
              demo_sign demo_randomUUID url_opts
              {| clock := 1755286299; uuid_calls := 0 |} _ _
              "agent://override|3f2c0c5e-0000-4000-8000-000000000000"
              {| clock := 1755286299; uuid_calls := 1 |}
              eq_refl eq_refl eq_refl eq_refl)
    as (priv & key & Hp & Hi & Hs).
  injection Hp as <-. injection Hi as <-. eexists. split; [exact Hs|].
  reflexivity.
Defined.

Lemma url_failures_witness :
  ∃ msg,
    makeClientAssertion empty_jwks_fetch demo_readJwkFile demo_importJWK
      demo_sign demo_randomUUID url_opts {| clock := 0; uuid_calls := 0 |}
    = (inl (TypeError msg), {| clock := 0; uuid_calls := 0 |}).
Proof.
  destruct (url_failures empty_jwks_fetch demo_readJwkFile demo_importJWK
              demo_sign demo_randomUUID url_opts
              {| clock := 0; uuid_calls := 0 |} eq_refl)
    as (_ & _ & _ & H).
  exact (H _ _ eq_refl eq_refl eq_refl eq_refl).
Defined.

Lemma jti_never_reused_witness :
  ∃ jwt1 jwt2,
    demo_sign jwt1 "d=..." = inr "agent://worf|u" ∧
    demo_sign jwt2 "d=..." = inr "agent://worf|0u" ∧
    claim_jti jwt1 ≠ claim_jti jwt2.
Proof.
  destruct (jti_never_reused demo_fetch demo_readJwkFile demo_importJWK
              demo_sign counting_randomUUID demo_opts demo_opts
              {| clock := 0; uuid_calls := 0 |}
              {| clock := 0; uuid_calls := 1 |}
              "agent://worf|u" "agent://worf|0u"
              {| clock := 0; uuid_calls := 1 |}
              {| clock := 0; uuid_calls := 2 |}
              counting_randomUUID_inj eq_refl (le_n _) eq_refl)
    as (jwt1 & key1 & jwt2 & key2 & H1 & H2 & _ & _ & Hne & _).
  exists jwt1, jwt2. unfold demo_sign in *. auto.
Defined.

End SignerFacts.

(** ** From the signer to the verifier *)

Module AssertionRoundTrip.
Import SignAssertion SignedClaims VerifyAssertion.

Section roundtrip.
Context {CryptoKey : Type}.
Variable fetch : string → exn + Response.
Variable readJwkFile : string → exn + JwkDocument.
Variable importJWK : Jwk → string → exn + CryptoKey.
Variable sign : SignJWT → CryptoKey → exn + string.
Variable randomUUID : nat → string.
Variable jwtVerify :
  string → string → string → exn + (Jose.JWTPayload * Jose.ProtectedHeader).
Variable jwksUrl : string.

Local Notation "'loadKey'" := (SignAssertion.loadKey fetch readJwkFile).
Local Notation "'makeClientAssertion'" :=
  (SignAssertion.makeClientAssertion
     fetch readJwkFile importJWK sign randomUUID).
Local Notation "'claimsFor'" := (SignedClaims.claimsFor randomUUID).

(** X7: an assertion produced by makeClientAssertion, decoded by the key
    service to the claims it was signed over, passes every guard of the
    verifier built for the same audience: it is accepted once, as the
    agent and key it was made for, its jti being recorded with expiry
    issuedAt + 60; presented again it is refused as a replay. *)
Theorem signed_assertion_accepted_once o w s w' priv a
    (cache : gmap string Z) :
  loadKey o = inr (Some priv, Some a) →
  makeClientAssertion o w = (inr s, w') →
  jwtVerify s jwksUrl (audience o) =
    inr (payloadOf (claimsFor priv a (audience o) w),
         headerOf (claimsFor priv a (audience o) w)) →
  0 ≤ clock w →
  randomUUID (uuid_calls w) ≠ "" →
  cache !! randomUUID (uuid_calls w) = None →
  let verify := makeVerifier jwtVerify jwksUrl (audience o) in
  let recorded :=
    <[randomUUID (uuid_calls w) := clock w `div` 1000 + 60]> cache in
  verify (Some ("Bearer " +:+ s)) cache
    = (inr (mkVerified a (kid priv)), recorded) ∧
  verify (Some ("Bearer " +:+ s)) recorded
    = (inl (Error "Replay detected"), recorded).
Proof.
  intros Hl Hr Hv Hclock Hjti Hfresh verify recorded.
  apply (SignerFacts.makeClientAssertion_inv
           fetch readJwkFile importJWK sign randomUUID) in Hr
    as (priv' & k & a' & key & Hl' & Hk & Hk0 & Ha0 & _).
  rewrite Hl in Hl'. injection Hl' as <- <-.
  assert (VerifyAssertion.presents jwtVerify jwksUrl (audience o)
            ("Bearer " +:+ s) a (clock w `div` 1000 + 60)
            (randomUUID (uuid_calls w)) (kid priv)) as Hp.
  { split; [apply startsWith_Bearer|].
    change (slice 7 ("Bearer " +:+ s)) with s.
    eexists _, _. split; [exact Hv|].
    cbn. rewrite Hk. repeat split; try done.
    pose proof (Z.div_pos (clock w) 1000 Hclock). lia. }
  subst verify.
  rewrite !(ReplayGuard.verify_presents _ _ _ _ _ _ _ _ _ Hp), Hfresh.
  subst recorded. rewrite lookup_insert_eq. split; reflexivity.
Qed.
End roundtrip.

Lemma signed_assertion_accepted_once_witness :
  let jwt := claimsFor demo_randomUUID
               {| kid := Some "a1-ed25519"; agent_id := Some "agent://worf";
                  params := "d=..." |}
               "agent://worf" "https://tools.local/tickets"
               {| clock := 1755286299; uuid_calls := 0 |} in
  let s := "agent://worf|3f2c0c5e-0000-4000-8000-000000000000" in
  makeVerifier (echo_jwtVerify s jwt) "https://keys.local/jwks.json"
    "https://tools.local/tickets" (Some ("Bearer " +:+ s)) ∅
  = (inr (mkVerified "agent://worf" (Some "a1-ed25519")),
     {["3f2c0c5e-0000-4000-8000-000000000000" := 1755346]}).
Proof.
  intros jwt s.
  refine (proj1 (signed_assertion_accepted_once demo_fetch demo_readJwkFile
                   demo_importJWK demo_sign demo_randomUUID
                   (echo_jwtVerify s jwt) "https://keys.local/jwks.json"
                   demo_opts {| clock := 1755286299; uuid_calls := 0 |}
                   s {| clock := 1755286299; uuid_calls := 1 |}
                   _ "agent://worf" ∅ eq_refl eq_refl eq_refl _ _ _)).
  - cbn. lia.
  - discriminate.
  - apply lookup_empty.
Defined.

End AssertionRoundTrip.

(** ** The second revision of the agent: getAuthToken *)

Module DirectAssertionFacts.
Import SignAssertion DirectAssertionAgent.

Lemma env_or_else_nonempty (env : gmap string string) (x d : string) :
  d ≠ "" → HelpdeskAgent.env_or_else env x d ≠ "".
Proof.
  intros Hd. unfold HelpdeskAgent.env_or_else.
  destruct (env !! x) as [v|]; [|exact Hd].
  destruct (String.eqb_spec v ""); [exact Hd|assumption].
Qed.

Section facts.
Context {CryptoKey : Type}.
Variable fetch : string → exn + Response.
Variable readJwkFile : string → exn + JwkDocument.
Variable importJWK : Jwk → string → exn + CryptoKey.
Variable sign : SignJWT → CryptoKey → exn + string.
Variable randomUUID : nat → string.

Local Notation "'getAuthToken'" :=
  (DirectAssertionAgent.getAuthToken
     fetch readJwkFile importJWK sign randomUUID).
Local Notation "'makeClientAssertion'" :=
  (SignAssertion.makeClientAssertion
     fetch readJwkFile importJWK sign randomUUID).

Lemma getAuthToken_unfold env w :
  getAuthToken env w = makeClientAssertion (getAuthToken_opts env) w.
Proof.
  unfold DirectAssertionAgent.getAuthToken, try_catch, throw.
  destruct (makeClientAssertion _ w) as [[e|s] w']; reflexivity.
Qed.

(** X8: in the second revision of the agent, HELPDESK_AGENT_ID decides the
    identity only when the key location is an http(s) URL - then issuer
    and subject are that variable (or its built-in default), never the
    key's own agent_id.  With a key file, changing HELPDESK_AGENT_ID
    changes nothing: the outcome is the same. *)
Theorem getAuthToken_identity_source (env : gmap string string) w :
  let path := privateJwkPath (getAuthToken_opts env) in
  let isUrl := startsWith path "http://" || startsWith path "https://" in
  (isUrl = false →
     ∀ v, getAuthToken (<["HELPDESK_AGENT_ID" := v]> env) w
          = getAuthToken env w) ∧
  (isUrl = true →
     ∀ s w', getAuthToken env w = (inr s, w') →
       ∃ priv key,
         sign (SignedClaims.claimsFor randomUUID priv
                 (HelpdeskAgent.env_or_else env "HELPDESK_AGENT_ID"
                    "a1-ed25519-2023-10-01-1234567")
                 (audience (getAuthToken_opts env)) w) key = inr s).
Proof.
  intros path isUrl. split.
  - intros Hfile v. rewrite !getAuthToken_unfold.
    unfold SignAssertion.makeClientAssertion, SignAssertion.loadKey.
    assert (privateJwkPath (getAuthToken_opts (<["HELPDESK_AGENT_ID" := v]> env))
            = path) as ->.
    { unfold path, getAuthToken_opts, HelpdeskAgent.env_or_else.
      cbn [privateJwkPath]. by rewrite lookup_insert_ne. }
    assert (audience (getAuthToken_opts (<["HELPDESK_AGENT_ID" := v]> env))
            = audience (getAuthToken_opts env)) as ->.
    { unfold getAuthToken_opts, HelpdeskAgent.env_or_else.
      cbn [audience]. by rewrite lookup_insert_ne. }
    fold path. fold isUrl. rewrite Hfile. reflexivity.
  - intros Hurl s w'. rewrite getAuthToken_unfold. intros Hr.
    apply (SignerFacts.makeClientAssertion_inv
             fetch readJwkFile importJWK sign randomUUID) in Hr
      as (priv & k & a & key & Hl & _ & _ & _ & _ & Hs & _).
    apply (Signer.loadKey_agent fetch readJwkFile) in Hl.
    fold path in Hl. fold isUrl in Hl. rewrite Hurl in Hl.
    unfold or_str in Hl. cbn [agentId getAuthToken_opts] in Hl.
    rewrite truthy_str_Some in Hl
      by (apply env_or_else_nonempty; discriminate).
    injection Hl as ->. exists priv, key. exact Hs.
Qed.
End facts.

Lemma getAuthToken_identity_source_witness :
  DirectAssertionAgent.getAuthToken demo_fetch demo_readJwkFile
    demo_importJWK demo_sign demo_randomUUID
    {[ "HELPDESK_AGENT_ID" := "agent://other";
       "HELPDESK_PRIVATE_JWK_PATH" := "secrets/a1.private.jwk.json" ]}
    {| clock := 0; uuid_calls := 0 |}
  = DirectAssertionAgent.getAuthToken demo_fetch demo_readJwkFile
      demo_importJWK demo_sign demo_randomUUID
      {[ "HELPDESK_PRIVATE_JWK_PATH" := "secrets/a1.private.jwk.json" ]}
      {| clock := 0; uuid_calls := 0 |}.
Proof.
  exact (proj1 (getAuthToken_identity_source demo_fetch demo_readJwkFile
                  demo_importJWK demo_sign demo_randomUUID
                  {[ "HELPDESK_PRIVATE_JWK_PATH"
                       := "secrets/a1.private.jwk.json" ]}
                  {| clock := 0; uuid_calls := 0 |})
           eq_refl "agent://other").
Defined.

End DirectAssertionFacts.

(** ** The tools: when the business logic runs *)

Module ToolFacts.
Import AccessTokenVerifier TicketsTool.

Section facts.
Context {V TicketList NewTicket : Type}.
Variable verifyAccessToken : string → M V AccessInfo.
Variable ticketsOf : string → string → TicketList.
Variable ticketFor : string → option string → string → NewTicket.

Local Notation "'verifyToken'" := (TicketsTool.verifyToken verifyAccessToken).

(** X9: verifyToken succeeds exactly when the access-token verifier
    succeeds and the verified scope list contains the required scope; it
    then hands back the verified agent and scopes.  An error of the
    verifier is rethrown as it is, unless its message contains "Invalid
    issuer". *)
Theorem verifyToken_accepts_iff h requiredScope v r v' :
  (verifyToken h requiredScope v = (inr r, v') ↔
     ∃ result, verifyAccessToken h v = (inr result, v') ∧
               requiredScope ∈ scopes result ∧
               agentId r = agentId result ∧ scopes r = scopes result) ∧
  (∀ e, verifyAccessToken h v = (inl e, v') →
        includes (message e) "Invalid issuer" = false →
        verifyToken h requiredScope v = (inl e, v')).
Proof.
  unfold TicketsTool.verifyToken, try_catch, bind, throw, ret,
    hasRequiredScope.
  split; [split|].
  - destruct (verifyAccessToken h v) as [[e|result] v0].
    { destruct (includes _ _); discriminate. }
    destruct (bool_decide_reflect (requiredScope ∈ scopes result)) as [Hin|];
      cbn [negb].
    + intros [= <- <-]. exists result. auto.
    + cbn [message]. destruct (includes _ _); discriminate.
  - intros (result & -> & Hin & Ha & Hs).
    rewrite bool_decide_eq_true_2 by exact Hin. cbn [negb].
    destruct r as [a sc]. cbn in Ha, Hs. subst. reflexivity.
  - intros e -> He. rewrite He. reflexivity.
Qed.

Lemma verifyToken_cases h requiredScope v :
  (∃ e v', verifyToken h requiredScope v = (inl e, v')) ∨
  (∃ result v',
     verifyAccessToken h v = (inr result, v') ∧
     requiredScope ∈ scopes result ∧
     verifyToken h requiredScope v =
       (inr {| agentId := agentId result; scopes := scopes result |}, v')).
Proof.
  unfold TicketsTool.verifyToken, try_catch, bind, throw, ret,
    hasRequiredScope.
  destruct (verifyAccessToken h v) as [[e|result] v0].
  - left. destruct (includes _ _); eauto.
  - destruct (bool_decide_reflect (requiredScope ∈ scopes result)) as [Hin|];
      cbn [negb].
    + right. exists result, v0. auto.
    + left. cbn [message]. destruct (includes _ _); eauto.
Qed.

(** X10: each tool runs its business logic exactly when verification
    succeeds with the scope it requires (tickets.read for ticketsTool,
    tickets.write for createTicketTool), once, and in the name of the
    verified agent: a result implies such a verification, and such a
    verification gives the result of the business call with that call
    logged.  Otherwise the tool throws "Authentication failed: <cause>"
    and no business call is made. *)
Theorem business_runs_iff_verified authToken status title description
    (s : ToolStore) :
  (let '(r, s') := ticketsTool verifyAccessToken ticketsOf authToken status s in
   match r with
   | inr out =>
     ∃ result,
       verifyAccessToken ("Bearer " +:+ authToken) (verifier s)
         = (inr result, verifier s') ∧
       "tickets.read" ∈ scopes result ∧
       out = ticketsOf (agentId result) status ∧
       executed s' = executed s ++ [GetTickets (agentId result) status]
   | inl e =>
     executed s' = executed s ∧
     ∃ cause, e = Error ("Authentication failed: " +:+ cause)
   end) ∧
  (let '(r, s') := createTicketTool verifyAccessToken ticketFor authToken
                     title description s in
   match r with
   | inr out =>
     ∃ result,
       verifyAccessToken ("Bearer " +:+ authToken) (verifier s)
         = (inr result, verifier s') ∧
       "tickets.write" ∈ scopes result ∧
       out = ticketFor title description (agentId result) ∧
       executed s' =
         executed s ++ [CreateTicket title description (agentId result)]
   | inl e =>
     executed s' = executed s ∧
     ∃ cause, e = Error ("Authentication failed: " +:+ cause)
   end) ∧
  (∀ result v',
     verifyAccessToken ("Bearer " +:+ authToken) (verifier s)
       = (inr result, v') →
     "tickets.read" ∈ scopes result →
     ticketsTool verifyAccessToken ticketsOf authToken status s =
       (inr (ticketsOf (agentId result) status),
        {| verifier := v';
           executed := executed s ++ [GetTickets (agentId result) status] |}))
  ∧
  (∀ result v',
     verifyAccessToken ("Bearer " +:+ authToken) (verifier s)
       = (inr result, v') →
     "tickets.write" ∈ scopes result →
     createTicketTool verifyAccessToken ticketFor authToken title
       description s =
       (inr (ticketFor title description (agentId result)),
        {| verifier := v';
           executed :=
             executed s ++ [CreateTicket title description (agentId result)]
        |})).
Proof.
  split; [|split; [|split]];
    [| |intros result v' Hv Hin;
        unfold ticketsTool, TicketsTool.verifyToken, try_catch, bind,
          withVerifier, throw, getTickets, ret, hasRequiredScope;
        rewrite Hv, bool_decide_eq_true_2 by exact Hin; reflexivity
      |intros result v' Hv Hin;
        unfold createTicketTool, TicketsTool.verifyToken, try_catch, bind,
          withVerifier, throw, createTicket, ret, hasRequiredScope;
        rewrite Hv, bool_decide_eq_true_2 by exact Hin; reflexivity].
  - unfold ticketsTool, try_catch, bind, withVerifier, throw, getTickets.
    destruct (verifyToken_cases ("Bearer " +:+ authToken) "tickets.read"
                (verifier s)) as [(e & v' & ->)|(result & v' & Hv & Hin & ->)].
    + split; [reflexivity|]. eexists. reflexivity.
    + cbn. exists result. auto.
  - unfold createTicketTool, try_catch, bind, withVerifier, throw,
      createTicket.
    destruct (verifyToken_cases ("Bearer " +:+ authToken) "tickets.write"
                (verifier s)) as [(e & v' & ->)|(result & v' & Hv & Hin & ->)].
    + split; [reflexivity|]. eexists. reflexivity.
    + cbn. exists result. auto.
Qed.
End facts.

Lemma business_runs_iff_verified_witness :
  ticketsTool demo_verifyAccessToken (λ agent status, (agent, status))
    "token" "all" {| verifier := (); executed := [] |}
  = (inr ("agent://worf", "all"),
     {| verifier := ();
        executed := [GetTickets "agent://worf" "all"] |}).
Proof.
  destruct (business_runs_iff_verified (NewTicket := unit)
              demo_verifyAccessToken (λ agent status, (agent, status))
              (λ _ _ _, ()) "token" "all" "" None
              {| verifier := (); executed := [] |}) as (_ & _ & Hrun & _).
  apply (Hrun {| agentId := "agent://worf"; scopes := ["tickets.read"] |} ()
           eq_refl).
  apply list_elem_of_singleton. reflexivity.
Defined.

Lemma verifyToken_accepts_iff_witness :
  TicketsTool.verifyToken
    (λ h, throw (S := unit) (Error "signature verification failed"))
    "Bearer forged" "tickets.read" ()
  = (inl (Error "signature verification failed"), ()).
Proof.
  exact (proj2 (verifyToken_accepts_iff
                  (λ h, throw (S := unit)
                          (Error "signature verification failed"))
                  "Bearer forged" "tickets.read" ()
                  {| agentId := ""; scopes := [] |} ())
           _ eq_refl eq_refl).
Defined.

End ToolFacts.

(** ** The first revision of the tools: allow-list and single use *)

Module DirectToolFacts.
Import VerifyAssertion TicketsTool DirectTicketsTool.

Section facts.
Variable jwtVerify :
  string → string → string → exn + (Jose.JWTPayload * Jose.ProtectedHeader).
Variable env : gmap string string.
Context {TicketList NewTicket : Type}.
Variable ticketsOf : string → string → TicketList.
Variable ticketFor : string → option string → string → NewTicket.

Local Notation "'presents'" :=
  (VerifyAssertion.presents jwtVerify
     (verifyDirectJWT_config env).1 (verifyDirectJWT_config env).2).
Local Notation "'ticketsTool'" :=
  (DirectTicketsTool.ticketsTool jwtVerify env ticketsOf).
Local Notation "'createTicketTool'" :=
  (DirectTicketsTool.createTicketTool jwtVerify env ticketFor).

Lemma verify_run authToken i e j k (cache : gmap string Z) :
  presents ("Bearer " +:+ authToken) i e j k →
  verify jwtVerify env (Some ("Bearer " +:+ authToken)) cache =
    match cache !! j with
    | Some _ => (inl (Error "Replay detected"), cache)
    | None => (inr (mkVerified i k), <[j := e]> cache)
    end.
Proof. apply ReplayGuard.verify_presents. Qed.

(** X11: an assertion that verifies but names an agent outside the
    allow-list is refused by both tools with "Authentication failed: Agent
    not authorized ..." and no business call is made; its jti has been
    recorded all the same, so presenting it again fails with
    "Authentication failed: Replay detected". *)
Theorem stranger_refused_and_token_spent authToken i e j k status title
    description cache calls :
  presents ("Bearer " +:+ authToken) i e j k →
  allowed env i = false →
  cache !! j = None →
  let s := {| verifier := cache; executed := calls |} in
  let spent := {| verifier := <[j := e]> cache; executed := calls |} in
  ticketsTool authToken status s =
    (inl (Error
       "Authentication failed: Agent not authorized to access tickets"),
     spent) ∧
  createTicketTool authToken title description s =
    (inl (Error
       "Authentication failed: Agent not authorized to create tickets"),
     spent) ∧
  ticketsTool authToken status spent =
    (inl (Error "Authentication failed: Replay detected"), spent).
Proof.
  intros Hp Hno Hfresh s spent.
  unfold DirectTicketsTool.ticketsTool, DirectTicketsTool.createTicketTool,
    try_catch, bind, withVerifier, throw.
  cbn [verifier executed s spent].
  rewrite !(verify_run _ _ _ _ _ _ Hp), Hfresh, lookup_insert_eq.
  cbn [agentId]. rewrite Hno. repeat split; reflexivity.
Qed.

(** X12: an assertion of an allowed agent is good for one tool call: the
    first call runs the business logic once, in the name of the verified
    agent, and records the jti; any later call of either tool with the
    same assertion fails with "Authentication failed: Replay detected"
    and runs nothing. *)
Theorem assertion_good_for_one_call authToken i e j k status title
    description cache calls :
  presents ("Bearer " +:+ authToken) i e j k →
  allowed env i = true →
  cache !! j = None →
  let s := {| verifier := cache; executed := calls |} in
  let used := {| verifier := <[j := e]> cache;
                 executed := calls ++ [GetTickets i status] |} in
  ticketsTool authToken status s = (inr (ticketsOf i status), used) ∧
  ticketsTool authToken status used =
    (inl (Error "Authentication failed: Replay detected"), used) ∧
  createTicketTool authToken title description used =
    (inl (Error "Authentication failed: Replay detected"), used).
Proof.
  intros Hp Hyes Hfresh s used.
  unfold DirectTicketsTool.ticketsTool, DirectTicketsTool.createTicketTool,
    try_catch, bind, withVerifier, throw, getTickets.
  cbn [verifier executed s used].
  rewrite !(verify_run _ _ _ _ _ _ Hp), Hfresh, lookup_insert_eq.
  cbn [agentId]. rewrite Hyes. repeat split; reflexivity.
Qed.

(** X22: the first revision's tools run their business logic only for a
    verified, allow-listed agent - one of the four built-in identities or
    the value of AGENT_ID or HELPDESK_AGENT_ID - once, in that agent's
    name, recording the assertion's jti.  Every other outcome is an error
    "Authentication failed: <cause>" with no business call and no record
    lost. *)
Theorem direct_tools_run_iff authToken status title description
    (s : @ToolStore (gmap string Z)) :
  (let '(r, s') := ticketsTool authToken status s in
   match r with
   | inr out =>
     ∃ i e j k,
       presents ("Bearer " +:+ authToken) i e j k ∧
       verifier s !! j = None ∧ Some i ∈ ALLOWED_AGENTS env ∧
       out = ticketsOf i status ∧
       s' = {| verifier := <[j := e]> (verifier s);
               executed := executed s ++ [GetTickets i status] |}
   | inl err =>
     executed s' = executed s ∧ verifier s ⊆ verifier s' ∧
     ∃ cause, err = Error ("Authentication failed: " +:+ cause)
   end) ∧
  (let '(r, s') := createTicketTool authToken title description s in
   match r with
   | inr out =>
     ∃ i e j k,
       presents ("Bearer " +:+ authToken) i e j k ∧
       verifier s !! j = None ∧ Some i ∈ ALLOWED_AGENTS env ∧
       out = ticketFor title description i ∧
       s' = {| verifier := <[j := e]> (verifier s);
               executed :=
                 executed s ++ [CreateTicket title description i] |}
   | inl err =>
     executed s' = executed s ∧ verifier s ⊆ verifier s' ∧
     ∃ cause, err = Error ("Authentication failed: " +:+ cause)
   end).
Proof.
  split.
  - unfold DirectTicketsTool.ticketsTool, try_catch, bind, withVerifier,
      throw, getTickets.
    destruct (verify jwtVerify env _ (verifier s)) as [[e|v] c] eqn:Hv;
      unfold verify in Hv.
    + apply VerifierFacts.verify_error_cache in Hv as ->.
      cbn. repeat split; [done|]. eexists. reflexivity.
    + apply VerifierFacts.verify_accept_inv in Hv
        as (hs & i & e & j & k & [= <-] & Hp & Hc & -> & ->).
      cbn [agentId]. unfold allowed.
      destruct (bool_decide_reflect (Some i ∈ ALLOWED_AGENTS env)) as [Hin|];
        cbn.
      * exists i, e, j, k. auto.
      * split; [reflexivity|]. split; [by apply insert_subseteq|].
        eexists. reflexivity.
  - unfold DirectTicketsTool.createTicketTool, try_catch, bind, withVerifier,
      throw, createTicket.
    destruct (verify jwtVerify env _ (verifier s)) as [[e|v] c] eqn:Hv;
      unfold verify in Hv.
    + apply VerifierFacts.verify_error_cache in Hv as ->.
      cbn. repeat split; [done|]. eexists. reflexivity.
    + apply VerifierFacts.verify_accept_inv in Hv
        as (hs & i & e & j & k & [= <-] & Hp & Hc & -> & ->).
      cbn [agentId]. unfold allowed.
      destruct (bool_decide_reflect (Some i ∈ ALLOWED_AGENTS env)) as [Hin|];
        cbn.
      * exists i, e, j, k. auto.
      * split; [reflexivity|]. split; [by apply insert_subseteq|].
        eexists. reflexivity.
Qed.
End facts.

Lemma stranger_presents :
  VerifyAssertion.presents stranger_jwtVerify
    (verifyDirectJWT_config ∅).1 (verifyDirectJWT_config ∅).2
    "Bearer mallory" "agent://mallory" 300 "m1" (Some "k9").
Proof.
  split; [reflexivity|]. eexists _, _. split; [reflexivity|].
  repeat split; done.
Defined.

Lemma worf_presents :
  VerifyAssertion.presents demo_jwtVerify
    (verifyDirectJWT_config ∅).1 (verifyDirectJWT_config ∅).2
    "Bearer tok" "agent://demo/a1" 300 "j1" (Some "k1").
Proof.
  split; [reflexivity|]. eexists _, _. split; [reflexivity|].
  repeat split; done.
Defined.

Lemma stranger_refused_and_token_spent_witness :
  DirectTicketsTool.ticketsTool stranger_jwtVerify ∅
    (λ agent status, (agent, status)) "mallory" "all"
    {| verifier := ∅; executed := [] |}
  = (inl (Error
       "Authentication failed: Agent not authorized to access tickets"),
     {| verifier := {["m1" := 300]}; executed := [] |}).
Proof.
  exact (proj1 (stranger_refused_and_token_spent (NewTicket := unit)
                  stranger_jwtVerify ∅ (λ agent status, (agent, status))
                  (λ _ _ _, ()) "mallory" "agent://mallory" 300 "m1"
                  (Some "k9") "all" "" None ∅ []
                  stranger_presents eq_refl (lookup_empty _))).
Defined.

Lemma assertion_good_for_one_call_witness :
  DirectTicketsTool.ticketsTool demo_jwtVerify ∅
    (λ agent status, (agent, status)) "tok" "open"
    {| verifier := ∅; executed := [] |}
  = (inr ("agent://demo/a1", "open"),
     {| verifier := {["j1" := 300]};
        executed := [GetTickets "agent://demo/a1" "open"] |}).
Proof.
  exact (proj1 (assertion_good_for_one_call (NewTicket := unit)
                  demo_jwtVerify ∅ (λ agent status, (agent, status))
                  (λ _ _ _, ()) "tok" "agent://demo/a1" 300 "j1"
                  (Some "k1") "open" "" None ∅ []
                  worf_presents eq_refl (lookup_empty _))).
Defined.

End DirectToolFacts.

(** ** The stub ticket store *)

Module TicketFacts.
Import TicketData.

(** X13: getTickets returns, in this order, the tickets T-1 (open), T-2
    (in_progress) and T-3 (closed), each attributed to the agent it was
    called for: all three for the filter "all", the one ticket with the
    requested status for "open", "in_progress" and "closed", and none for
    any other filter; count is the number of tickets returned. *)
Theorem getTickets_filter isoNow agentId statusFilter :
  let r := getTickets isoNow agentId statusFilter in
  let t1 := {| id := "T-1"; title := "Hello"; ticket_by := agentId;
               description := Some "Initial ticket"; status := Some "open";
               createdAt := Some (isoNow 0%nat) |} in
  let t2 := {| id := "T-2"; title := "Bug Report"; ticket_by := agentId;
               description := Some "System issue reported";
               status := Some "in_progress";
               createdAt := Some (isoNow 1%nat) |} in
  let t3 := {| id := "T-3"; title := "Feature Request";
               ticket_by := agentId;
               description := Some "New feature suggestion";
               status := Some "closed";
               createdAt := Some (isoNow 2%nat) |} in
  tickets r =
    (if decide (statusFilter = "all") then [t1; t2; t3]
     else if decide (statusFilter = "open") then [t1]
     else if decide (statusFilter = "in_progress") then [t2]
     else if decide (statusFilter = "closed") then [t3]
     else []) ∧
  count r = length (tickets r) ∧
  Forall (λ t, ticket_by t = agentId) (tickets r) ∧
  (statusFilter = "all" → length (tickets r) = 3%nat) ∧
  (statusFilter ≠ "all" →
     Forall (λ t, status t = Some statusFilter) (tickets r) ∧
     (count r ≤ 1)%nat) ∧
  (statusFilter ∉ ["all"; "open"; "in_progress"; "closed"] →
     tickets r = []).
Proof.
  unfold getTickets. cbv zeta.
  destruct (String.eqb_spec statusFilter "all") as [->|Hne]; cbn [negb].
  - cbn [tickets count]. split; [reflexivity|]. split; [reflexivity|].
    split; [repeat constructor|]. split; [reflexivity|].
    split; [congruence|]. intros H. exfalso. apply H. constructor.
  - cbn [tickets count].
    rewrite !filter_cons, filter_nil.
    repeat case_decide; cbn [status] in *; simplify_eq; cbn.
    all: split; [reflexivity|].
    all: split; [reflexivity|].
    all: split; [once (repeat constructor)|].
    all: split; [intros ?; first [congruence|discriminate]|].
    all: split; [intros _; split; [once (repeat constructor)|lia]|].
    all: intros Hnot; try reflexivity; exfalso; apply Hnot.
    all: rewrite !elem_of_cons; auto.
Qed.

End TicketFacts.

(** ** The token cache: lifetimes, framing, revisions *)

Module CacheFacts.
Import HelpdeskAgent AgentTools.

Lemma split_dot_nodot (s : string) :
  has_char "." s = false → split_dot s = [s].
Proof.
  induction s as [|c s IH]; [reflexivity|].
  cbn [has_char split_dot]. intros H. apply orb_false_iff in H as [Hc Hs].
  rewrite Ascii.eqb_sym, Hc, (IH Hs). reflexivity.
Qed.

Lemma split_dot_app (h rest : string) :
  has_char "." h = false →
  split_dot (h +:+ "." +:+ rest) = h :: split_dot rest.
Proof.
  induction h as [|c h IH]; [reflexivity|].
  cbn [has_char]. intros H. apply orb_false_iff in H as [Hc Hs].
  change (String c h +:+ "." +:+ rest) with (String c (h +:+ "." +:+ rest)).
  cbn [split_dot]. rewrite Ascii.eqb_sym, Hc, (IH Hs). reflexivity.
Qed.

Section facts.
Variable parseSegment : string → option Jose.JWTPayload.
Variable exchangeForAccessToken : ExchangeArgs → Z → (exn + string) * Z.

Local Notation "'getAccessTokenWith'" :=
  (HelpdeskAgent.getAccessTokenWith parseSegment exchangeForAccessToken).
Local Notation "'lookupCache'" := (HelpdeskAgent.lookupCache parseSegment).
Local Notation "'tokenExpMs'" := (HelpdeskAgent.tokenExpMs parseSegment).
Local Notation "'decodeJWTPayload'" :=
  (HelpdeskAgent.decodeJWTPayload parseSegment).
Local Notation "'usable'" := (HelpdeskAgent.usable parseSegment).
Local Notation "'margin_inv'" := (AgentTools.margin_inv parseSegment).

(** X14: decodeJWTPayload reads the second dot-separated segment of the
    token and nothing else: a token without a dot decodes to null, and a
    token of two or three segments decodes to whatever its middle segment
    parses to, whatever the header and signature are. *)
Theorem decodeJWTPayload_second_segment header payload :
  has_char "." header = false → has_char "." payload = false →
  (∀ token, has_char "." token = false → decodeJWTPayload token = None) ∧
  decodeJWTPayload (header +:+ "." +:+ payload) = parseSegment payload ∧
  (∀ signature,
     decodeJWTPayload (header +:+ "." +:+ payload +:+ "." +:+ signature)
       = parseSegment payload).
Proof.
  intros Hh Hp. unfold HelpdeskAgent.decodeJWTPayload. split; [|split].
  - intros token Ht. rewrite (split_dot_nodot _ Ht). reflexivity.
  - rewrite (split_dot_app _ _ Hh), (split_dot_nodot _ Hp). reflexivity.
  - intros sig. rewrite (split_dot_app _ _ Hh), (split_dot_app _ _ Hp).
    reflexivity.
Qed.

Lemma lookupCache_inr_other key w cache k :
  lookupCache key w = inr cache → k ≠ key →
  cache !! k = tokenCache w !! k.
Proof.
  unfold HelpdeskAgent.lookupCache. intros H Hne.
  assert (cache = tokenCache w ∨ cache = delete key (tokenCache w))
    as [->| ->].
  { destruct (tokenCache w !! key) as [e|]; [|left; congruence].
    destruct (clock w <? expires e); [|left; congruence].
    destruct (_ && _); [discriminate|right; congruence]. }
  - reflexivity.
  - by rewrite lookup_delete_ne.
Qed.

(** X15: a call for one audience and scope set never touches the cache
    entries stored under other keys, and adds at most one record to the
    log of exchanges, after the records that were there. *)
Theorem other_keys_untouched cfg targetAudience scopes w k :
  k ≠ cacheKey targetAudience scopes →
  let w' := (getAccessTokenWith cfg targetAudience scopes w).2 in
  tokenCache w' !! k = tokenCache w !! k ∧
  ∃ new, exchangeLog w' = exchangeLog w ++ new ∧ (length new ≤ 1)%nat.
Proof.
  intros Hne. unfold HelpdeskAgent.getAccessTokenWith.
  destruct (lookupCache _ w) as [tok|cache] eqn:Hl; cbn [snd].
  - split; [reflexivity|]. exists [].
    split; [by rewrite app_nil_r|cbn; lia].
  - pose proof (lookupCache_inr_other _ _ _ _ Hl Hne) as Hk.
    destruct (exchangeForAccessToken _ _) as [[e|tok] t];
      cbn [snd tokenCache exchangeLog].
    + split; [exact Hk|]. eexists [_]. split; [reflexivity|]. cbn. lia.
    + rewrite lookup_insert_ne by congruence.
      split; [exact Hk|]. eexists [_]. split; [reflexivity|]. cbn. lia.
Qed.

(** X16: what a successful exchange leaves in the cache.  The new entry
    holds the token just obtained and is cached until at most four
    minutes after the exchange settled; when the token decodes to a
    non-zero expiry it is cached until the earlier of that bound and sixty
    seconds before the expiry, and otherwise for the four minutes. *)
Theorem cache_lifetime_bounds cfg targetAudience scopes w accessToken t :
  let key := cacheKey targetAudience scopes in
  ¬ usable key w →
  exchangeForAccessToken (exchangeArgs cfg targetAudience scopes) (clock w)
    = (inr accessToken, t) →
  ∃ w' cacheUntil,
    getAccessTokenWith cfg targetAudience scopes w = (inr accessToken, w') ∧
    clock w' = t ∧
    tokenCache w' !! key
      = Some {| token := accessToken; expires := cacheUntil |} ∧
    cacheUntil ≤ t + 4 * 60 * 1000 ∧
    (∀ e, tokenExpMs accessToken = Some e → e ≠ 0 →
       cacheUntil = (e - 60 * 1000) `min` (t + 4 * 60 * 1000) ∧
       cacheUntil ≤ e - 60 * 1000) ∧
    (truthy_num (tokenExpMs accessToken) = false →
       cacheUntil = t + 4 * 60 * 1000).
Proof.
  intros key Hn Hx. unfold HelpdeskAgent.getAccessTokenWith. fold key.
  rewrite (TokenCache.lookupCache_unusable parseSegment _ _ Hn), Hx.
  eexists _, _. split; [reflexivity|]. split; [reflexivity|].
  cbn [tokenCache]. split; [apply lookup_insert_eq|].
  destruct (truthy_num (tokenExpMs accessToken)) eqn:Ht.
  - apply truthy_num_inv in Ht as (e & He & He0). rewrite He.
    change (default 0 (Some e)) with e.
    split; [lia|]. split; [|discriminate].
    intros e' [= <-] _. split; [reflexivity|lia].
  - split; [lia|]. split; [|reflexivity].
    intros e He He0. rewrite He, (truthy_num_Some _ He0) in Ht. discriminate.
Qed.

(** X17: every token the cache serves has more than a minute left.  If
    each cached token with a readable expiry is cached until at least 60
    seconds before that expiry - which holds for the empty cache and is
    kept by every call - then a token returned without an exchange
    decodes to an expiry more than 60 seconds after the current time. *)
Theorem served_token_has_margin cfg targetAudience scopes w r w' :
  margin_inv w →
  getAccessTokenWith cfg targetAudience scopes w = (r, w') →
  margin_inv w' ∧
  (exchangeLog w' = exchangeLog w →
     ∃ tok e, r = inr tok ∧ tokenExpMs tok = Some e ∧
              e > clock w + 60 * 1000).
Proof.
  intros Hinv. unfold HelpdeskAgent.getAccessTokenWith.
  destruct (lookupCache _ w) as [tok|cache] eqn:Hl.
  - intros [= <- <-]. split; [exact Hinv|]. intros _.
    destruct (TokenCache.lookupCache_inl parseSegment _ _ _ Hl)
      as ((c & e & Hc & Hlt & He & He0 & _) & c' & Hc' & <-).
    rewrite Hc in Hc'. injection Hc' as <-.
    exists (token c), e. split; [reflexivity|]. split; [exact He|].
    pose proof (Hinv _ _ _ Hc He He0). lia.
  - pose proof (TokenCache.lookupCache_inr parseSegment _ _ _ Hl) as Hsub.
    destruct (exchangeForAccessToken _ _) as [[e|tok] t]; intros [= <- <-];
      cbn [exchangeLog tokenCache].
    + split; [|intros E; exfalso; exact (TokenCache.app_singleton_neq _ _ E)].
      intros k c x Hk Hx Hx0. cbn [tokenCache] in Hk.
      exact (Hinv k c x (Hsub _ _ Hk) Hx Hx0).
    + split; [|intros E; exfalso; exact (TokenCache.app_singleton_neq _ _ E)].
      intros k c x. cbn [tokenCache].
      destruct (decide (cacheKey targetAudience scopes = k)) as [<-|Hne].
      * rewrite lookup_insert_eq. intros [= <-]. cbn [token expires].
        intros Hx Hx0. rewrite Hx, (truthy_num_Some _ Hx0).
        change (default 0 (Some x)) with x. lia.
      * rewrite lookup_insert_ne by exact Hne. intros Hk Hx Hx0.
        exact (Hinv k c x (Hsub _ _ Hk) Hx Hx0).
Qed.

(** X18: a token whose payload gives no usable expiry is stored but never
    served: when an exchange returns such a token, the next call for the
    same audience and scopes - however soon - finds the entry, drops it
    and exchanges again. *)
Theorem unreadable_expiry_never_served cfg targetAudience scopes w
    accessToken t later :
  let key := cacheKey targetAudience scopes in
  let args := exchangeArgs cfg targetAudience scopes in
  ¬ usable key w →
  exchangeForAccessToken args (clock w) = (inr accessToken, t) →
  truthy_num (tokenExpMs accessToken) = false →
  let w1 := (getAccessTokenWith cfg targetAudience scopes w).2 in
  let w1' := {| clock := later; tokenCache := tokenCache w1;
                exchangeLog := exchangeLog w1 |} in
  token <$> tokenCache w1 !! key = Some accessToken ∧
  exchangeLog (getAccessTokenWith cfg targetAudience scopes w1').2
    = exchangeLog w ++ [(args, inr accessToken);
                        (args, (exchangeForAccessToken args later).1)].
Proof.
  intros key args Hn Hx Ht.
  assert ((getAccessTokenWith cfg targetAudience scopes w).2
          = {| clock := t;
               tokenCache :=
                 <[key := {| token := accessToken;
                             expires := t + 4 * 60 * 1000 |}]>
                   (match tokenCache w !! key with
                    | Some c => if clock w <? expires c
                                then delete key (tokenCache w)
                                else tokenCache w
                    | None => tokenCache w
                    end);
               exchangeLog := exchangeLog w ++ [(args, inr accessToken)] |})
    as Hw1.
  { unfold HelpdeskAgent.getAccessTokenWith. fold key.
    rewrite (TokenCache.lookupCache_unusable parseSegment _ _ Hn).
    fold args. rewrite Hx, Ht. reflexivity. }
  rewrite Hw1. cbv zeta. cbn [tokenCache exchangeLog].
  split; [by rewrite lookup_insert_eq|].
  match goal with
  | |- exchangeLog (getAccessTokenWith _ _ _ ?w1').2 = _ =>
    assert (¬ usable key w1') as Hn'
  end.
  { intros (c & e & Hc & _ & He & He0 & _). cbn [tokenCache] in Hc.
    rewrite lookup_insert_eq in Hc. injection Hc as <-. cbn [token] in He.
    rewrite He, (truthy_num_Some _ He0) in Ht. discriminate. }
  unfold HelpdeskAgent.getAccessTokenWith. fold key.
  rewrite (TokenCache.lookupCache_unusable parseSegment _ _ Hn').
  fold args. cbn [clock].
  destruct (exchangeForAccessToken args later) as [[e|tok] t2];
    cbn [snd fst exchangeLog]; by rewrite <- app_assoc.
Qed.

(** X19: with the three variables set, the first and the last revision
    of getAccessToken are the same function: same result, same cache,
    same exchange. *)
Theorem revisions_agree (env : gmap string string) targetAudience scopes w :
  truthy_str (env !! "HELPDESK_PRIVATE_JWK_PATH") = true →
  truthy_str (env !! "HELPDESK_AGENT_ID") = true →
  truthy_str (env !! "TOKEN_SERVICE_URL") = true →
  getAccessToken parseSegment exchangeForAccessToken env targetAudience
    scopes w
  = getAccessToken_defaults parseSegment exchangeForAccessToken env
      targetAudience scopes w.
Proof.
  intros Hp Ha Hu.
  unfold getAccessToken, getAccessToken_defaults, config_required,
    config_defaults, env_or_else.
  rewrite Hp, Ha, Hu. cbn [negb].
  apply truthy_str_inv in Hp as (p & -> & Hp0).
  apply truthy_str_inv in Ha as (a & -> & Ha0).
  apply truthy_str_inv in Hu as (u & -> & Hu0).
  cbn [default].
  rewrite (proj2 (String.eqb_neq p "") Hp0), (proj2 (String.eqb_neq a "") Ha0),
    (proj2 (String.eqb_neq u "") Hu0).
  reflexivity.
Qed.
End facts.

Lemma no_entry_unusable parseSegment key (t : Z) :
  ¬ usable parseSegment key
      {| clock := t; tokenCache := ∅; exchangeLog := [] |}.
Proof.
  intros (c & e & Hc & _). cbn [tokenCache] in Hc.
  rewrite lookup_empty in Hc. discriminate.
Defined.

Lemma margin_inv_empty parseSegment (t : Z) :
  margin_inv parseSegment {| clock := t; tokenCache := ∅; exchangeLog := [] |}.
Proof.
  intros k c e Hk. cbn [tokenCache] in Hk. rewrite lookup_empty in Hk.
  discriminate.
Defined.

Lemma decodeJWTPayload_second_segment_witness :
  decodeJWTPayload demo_parseSegment "hdr.exp900.sig"
  = demo_parseSegment "exp900".
Proof.
  exact (proj2 (proj2 (decodeJWTPayload_second_segment demo_parseSegment
                         "hdr" "exp900" eq_refl eq_refl)) "sig").
Defined.

Lemma other_keys_untouched_witness :
  tokenCache
    (getAccessTokenWith demo_parseSegment demo_exchange demo_config
       "https://tools.local/tickets" ["tickets.read"]
       {| clock := 0; tokenCache := ∅; exchangeLog := [] |}).2
    !! "https://tools.local/tickets:tickets.write"
  = None.
Proof.
  refine (proj1 (other_keys_untouched demo_parseSegment demo_exchange
                   demo_config "https://tools.local/tickets"
                   ["tickets.read"]
                   {| clock := 0; tokenCache := ∅; exchangeLog := [] |}
                   "https://tools.local/tickets:tickets.write" _)).
  vm_compute. discriminate.
Defined.

Lemma cache_lifetime_bounds_witness :
  ∃ w' cacheUntil,
    getAccessTokenWith demo_parseSegment demo_exchange demo_config
      "https://tools.local/tickets" ["tickets.read"]
      {| clock := 0; tokenCache := ∅; exchangeLog := [] |}
    = (inr "hdr.exp900.sig", w') ∧
    cacheUntil ≤ 5 + 4 * 60 * 1000 ∧
    tokenCache w' !! cacheKey "https://tools.local/tickets" ["tickets.read"]
    = Some {| token := "hdr.exp900.sig"; expires := cacheUntil |}.
Proof.
  destruct (cache_lifetime_bounds demo_parseSegment demo_exchange demo_config
              "https://tools.local/tickets" ["tickets.read"]
              {| clock := 0; tokenCache := ∅; exchangeLog := [] |}
              "hdr.exp900.sig" 5 (no_entry_unusable _ _ 0) eq_refl)
    as (w' & u & Hr & _ & Hc & Hu & _).
  exists w', u. auto.
Defined.

Lemma served_token_has_margin_witness :
  margin_inv demo_parseSegment
    (getAccessTokenWith demo_parseSegment demo_exchange demo_config
       "https://tools.local/tickets" ["tickets.read"]
       {| clock := 0; tokenCache := ∅; exchangeLog := [] |}).2.
Proof.
  exact (proj1 (served_token_has_margin demo_parseSegment demo_exchange
                  demo_config "https://tools.local/tickets" ["tickets.read"]
                  {| clock := 0; tokenCache := ∅; exchangeLog := [] |} _ _
                  (margin_inv_empty _ 0) eq_refl)).
Defined.

Lemma unreadable_expiry_never_served_witness :
  exchangeLog
    (getAccessTokenWith demo_parseSegment opaque_exchange demo_config
       "https://tools.local/tickets" ["tickets.read"]
       {| clock := 6;
          tokenCache :=
            tokenCache
              (getAccessTokenWith demo_parseSegment opaque_exchange
                 demo_config "https://tools.local/tickets" ["tickets.read"]
                 {| clock := 0; tokenCache := ∅; exchangeLog := [] |}).2;
          exchangeLog :=
            exchangeLog
              (getAccessTokenWith demo_parseSegment opaque_exchange
                 demo_config "https://tools.local/tickets" ["tickets.read"]
                 {| clock := 0; tokenCache := ∅; exchangeLog := [] |}).2 |}).2
  = [(exchangeArgs demo_config "https://tools.local/tickets" ["tickets.read"],
      inr "opaque-token");
     (exchangeArgs demo_config "https://tools.local/tickets" ["tickets.read"],
      inr "opaque-token")].
Proof.
  exact (proj2 (unreadable_expiry_never_served demo_parseSegment
                  opaque_exchange demo_config "https://tools.local/tickets"
                  ["tickets.read"]
                  {| clock := 0; tokenCache := ∅; exchangeLog := [] |}
                  "opaque-token" 5 6 (no_entry_unusable _ _ 0)
                  eq_refl eq_refl)).
Defined.

Lemma revisions_agree_witness :
  getAccessToken demo_parseSegment demo_exchange full_env
    "https://tools.local/tickets" ["tickets.read"]
    {| clock := 0; tokenCache := ∅; exchangeLog := [] |}
  = getAccessToken_defaults demo_parseSegment demo_exchange full_env
      "https://tools.local/tickets" ["tickets.read"]
      {| clock := 0; tokenCache := ∅; exchangeLog := [] |}.
Proof.
  exact (revisions_agree demo_parseSegment demo_exchange full_env
           "https://tools.local/tickets" ["tickets.read"]
           {| clock := 0; tokenCache := ∅; exchangeLog := [] |}
           eq_refl eq_refl eq_refl).
Defined.

End CacheFacts.

(** ** The agent's token tools *)

Module AgentFacts.
Import HelpdeskAgent AgentTools.

Lemma plain_tickets_write : Forall plain ["tickets.write"].
Proof.
  constructor; [|constructor]. split; [discriminate|split; reflexivity].
Qed.

Section facts.
Variable parseSegment : string → option Jose.JWTPayload.
Variable exchangeForAccessToken : ExchangeArgs → Z → (exn + string) * Z.
Variable env : gmap string string.

Local Notation "'getAccessTokenWith'" :=
  (HelpdeskAgent.getAccessTokenWith parseSegment exchangeForAccessToken).
Local Notation "'lookupCache'" := (HelpdeskAgent.lookupCache parseSegment).
Local Notation "'call'" :=
  (AgentTools.call parseSegment exchangeForAccessToken env).
Local Notation "'reachable'" :=
  (AgentTools.reachable parseSegment exchangeForAccessToken env).

Lemma cache_inv_step cfg targetAudience scopes w :
  cache_inv w → Forall plain scopes →
  cache_inv (getAccessTokenWith cfg targetAudience scopes w).2.
Proof.
  intros Hinv Hplain. unfold HelpdeskAgent.getAccessTokenWith.
  destruct (lookupCache _ w) as [tok|cache] eqn:Hl; [exact Hinv|].
  pose proof (TokenCache.lookupCache_inr parseSegment _ _ _ Hl) as Hsub.
  assert (∀ x k c, cache !! k = Some c →
            ∃ args, (args, inr (token c)) ∈ exchangeLog w ++ [x] ∧
                    Forall plain (HelpdeskAgent.scopes args) ∧
                    HelpdeskAgent.targetAudience args +:+ ":" +:+
                      join "," (HelpdeskAgent.scopes args) = k) as Hold.
  { intros x k c Hk. destruct (Hinv _ _ (Hsub _ _ Hk)) as (a & Hin & H).
    exists a. split; [|exact H]. apply elem_of_app. left. exact Hin. }
  destruct (exchangeForAccessToken _ _) as [[e|tok] t]; cbn [snd];
    intros k c; cbn [tokenCache exchangeLog]; [apply Hold|].
  destruct (decide (cacheKey targetAudience scopes = k)) as [<-|Hne].
  - rewrite lookup_insert_eq. intros [= <-].
    exists (exchangeArgs cfg targetAudience scopes).
    split; [apply elem_of_app; right; by apply list_elem_of_singleton|].
    split; [apply TokenCache.sort_plain, Hplain|reflexivity].
  - rewrite lookup_insert_ne by exact Hne. apply Hold.
Qed.

Lemma token_origin cfg targetAudience scopes w tok w' :
  cache_inv w → Forall plain scopes →
  getAccessTokenWith cfg targetAudience scopes w = (inr tok, w') →
  ∃ args, (args, inr tok) ∈ exchangeLog w' ∧
          HelpdeskAgent.targetAudience args = targetAudience ∧
          HelpdeskAgent.scopes args = sort scopes.
Proof.
  intros Hinv Hplain. unfold HelpdeskAgent.getAccessTokenWith.
  destruct (lookupCache _ w) as [tok0|cache] eqn:Hl.
  - intros [= <- <-].
    destruct (TokenCache.lookupCache_inl parseSegment _ _ _ Hl)
      as (_ & c & Hc & <-).
    destruct (Hinv _ _ Hc) as (args & Hin & Hpl & Hkey).
    apply TokenCache.cacheKey_inj in Hkey as [Haud Hsc];
      auto using TokenCache.sort_plain.
    exists args. auto.
  - destruct (exchangeForAccessToken _ _) as [[e|tok0] t]; [discriminate|].
    intros [= <- <-]. exists (exchangeArgs cfg targetAudience scopes).
    cbn [exchangeLog]. split; [|split; reflexivity].
    apply elem_of_app. right. by apply list_elem_of_singleton.
Qed.

Lemma reachable_cache_inv w : reachable w → cache_inv w.
Proof.
  induction 1 as [t|w t _ IH|w c _ IH].
  - intros k x Hk. cbn [tokenCache] in Hk. rewrite lookup_empty in Hk.
    discriminate.
  - exact IH.
  - destruct c; unfold AgentTools.call, getTicketsToken,
      getCreateTicketToken, getAccessToken;
      (destruct (config_required env) as [e|cfg]; [exact IH|]);
      apply cache_inv_step;
      auto using TokenCache.plain_tickets_read, plain_tickets_write.
Qed.

(** X20: whatever the agent has done so far - any calls of its two token
    tools, in any order, at any times - the token a tool hands out,
    whether it comes from the cache or from a fresh exchange, was issued
    by the Token Service for the tickets audience and for exactly the one
    scope of that tool: tickets.read for getTicketsToken, tickets.write
    for getCreateTicketToken. *)
Theorem agent_token_matches_tool w c tok w' :
  reachable w →
  call c w = (inr tok, w') →
  ∃ args, (args, inr tok) ∈ exchangeLog w' ∧
          HelpdeskAgent.targetAudience args = "https://tools.local/tickets" ∧
          HelpdeskAgent.scopes args =
            [match c with
             | GetTicketsToken => "tickets.read"
             | GetCreateTicketToken => "tickets.write"
             end].
Proof.
  intros Hw. pose proof (reachable_cache_inv _ Hw) as Hinv.
  destruct c; unfold AgentTools.call, getTicketsToken, getCreateTicketToken,
    getAccessToken;
    (destruct (config_required env) as [e|cfg]; [discriminate|]);
    intros Hr; eapply token_origin in Hr;
    eauto using TokenCache.plain_tickets_read, plain_tickets_write.
Qed.
End facts.

Lemma agent_token_matches_tool_witness :
  ∃ args,
    (args, inr "hdr.exp900.sig") ∈
      exchangeLog
        (getTicketsToken demo_parseSegment demo_exchange full_env
           {| clock := 0; tokenCache := ∅; exchangeLog := [] |}).2 ∧
    scopes args = ["tickets.read"].
Proof.
  destruct (agent_token_matches_tool demo_parseSegment demo_exchange full_env
              {| clock := 0; tokenCache := ∅; exchangeLog := [] |}
              GetTicketsToken "hdr.exp900.sig" _
              (reach_start _ _ _ 0) eq_refl)
    as (args & Hin & _ & Hs).
  exists args. split; [exact Hin|exact Hs].
Defined.

End AgentFacts.


(** ** The token cache over the requests the sources make *)

Module CachePolicy.
Import HelpdeskAgent AgentTools CacheRuns.

Lemma plain_requested (scopes : list string) :
  scopes ∈ requested_scopes → Forall plain scopes.
Proof.
  unfold requested_scopes. rewrite !elem_of_cons, elem_of_nil.
  intros [->|[->|[->|[]]]]; repeat constructor; discriminate.
Qed.

Section facts.
Variable parseSegment : string → option Jose.JWTPayload.
Variable exchangeForAccessToken : ExchangeArgs → Z → (exn + string) * Z.

Local Notation "'getAccessTokenWith'" :=
  (HelpdeskAgent.getAccessTokenWith parseSegment exchangeForAccessToken).
Local Notation "'lookupCache'" := (HelpdeskAgent.lookupCache parseSegment).
Local Notation "'tokenExpMs'" := (HelpdeskAgent.tokenExpMs parseSegment).
Local Notation "'usable'" := (HelpdeskAgent.usable parseSegment).
Local Notation "'margin_inv'" := (AgentTools.margin_inv parseSegment).
Local Notation "'tokenScopes'" := (CacheRuns.tokenScopes parseSegment).
Local Notation "'serveable'" := (CacheRuns.serveable parseSegment).
Local Notation "'grants_requested'" :=
  (CacheRuns.grants_requested parseSegment exchangeForAccessToken).
Local Notation "'log_inv'" := (CacheRuns.log_inv exchangeForAccessToken).
Local Notation "'reachable'" :=
  (CacheRuns.reachable parseSegment exchangeForAccessToken).

Lemma log_inv_step cfg targetAudience scopes w :
  log_inv w → log_inv (getAccessTokenWith cfg targetAudience scopes w).2.
Proof.
  intros Hinv. unfold HelpdeskAgent.getAccessTokenWith.
  destruct (lookupCache _ w) as [tok|cache]; [exact Hinv|].
  destruct (exchangeForAccessToken _ _) as [[e|tok] t] eqn:Hx; cbn [snd];
    intros args tok'; cbn [exchangeLog]; rewrite elem_of_app,
      list_elem_of_singleton; intros [Hin|Heq];
      try exact (Hinv _ _ Hin); simplify_eq.
  exists (clock w). rewrite Hx. reflexivity.
Qed.

Lemma margin_inv_step cfg targetAudience scopes w :
  margin_inv w → margin_inv (getAccessTokenWith cfg targetAudience scopes w).2.
Proof.
  intros Hinv. unfold HelpdeskAgent.getAccessTokenWith.
  destruct (lookupCache _ w) as [tok|cache] eqn:Hl; [exact Hinv|].
  pose proof (TokenCache.lookupCache_inr parseSegment _ _ _ Hl) as Hsub.
  destruct (exchangeForAccessToken _ _) as [[e|tok] t]; cbn [snd];
    intros k c x; cbn [tokenCache].
  - intros Hk Hx Hx0. exact (Hinv k c x (Hsub _ _ Hk) Hx Hx0).
  - destruct (decide (cacheKey targetAudience scopes = k)) as [<-|Hne].
    + rewrite lookup_insert_eq. intros [= <-]. cbn [token expires].
      intros Hx Hx0. rewrite Hx, (truthy_num_Some _ Hx0).
      change (default 0 (Some x)) with x. lia.
    + rewrite lookup_insert_ne by exact Hne. intros Hk Hx Hx0.
      exact (Hinv k c x (Hsub _ _ Hk) Hx Hx0).
Qed.

Lemma runs_invariants w :
  reachable w → cache_inv w ∧ log_inv w ∧ margin_inv w.
Proof.
  induction 1 as [t|w t _ IH|w cfg scopes _ IH Hsc].
  - repeat split; intros ? **;
      repeat match goal with
      | H : tokenCache _ !! _ = Some _ |- _ =>
          cbn [tokenCache] in H; rewrite lookup_empty in H; discriminate
      | H : _ ∈ exchangeLog _ |- _ =>
          cbn [exchangeLog] in H; apply elem_of_nil in H; destruct H
      end.
  - exact IH.
  - destruct IH as (Hc & Hl & Hm). split; [|split].
    + apply AgentFacts.cache_inv_step; auto using plain_requested.
    + apply log_inv_step, Hl.
    + apply margin_inv_step, Hm.
Qed.

(** C4: in every state the process can reach, a token served from the
    cache rather than freshly exchanged is the token of the entry stored
    under the requested audience and scope set; the Token Service issued
    it for that audience and for scopes that include every scope now
    requested, and when the Token Service grants what it is asked for,
    the token's own scopes include them too.  A request that no entry
    recorded for a covering scope set matches - in particular one with no
    entry under its own key - performs a fresh exchange. *)
Theorem served_token_covers_request cfg scopes w r w' :
  reachable w → scopes ∈ requested_scopes →
  getAccessTokenWith cfg tickets_audience scopes w = (r, w') →
  (exchangeLog w' = exchangeLog w →
     ∃ c args now,
       r = inr (token c) ∧
       tokenCache w !! cacheKey tickets_audience scopes = Some c ∧
       (args, inr (token c)) ∈ exchangeLog w ∧
       (exchangeForAccessToken args now).1 = inr (token c) ∧
       targetAudience args = tickets_audience ∧
       (∀ s, s ∈ scopes → s ∈ HelpdeskAgent.scopes args) ∧
       (grants_requested → ∀ s, s ∈ scopes → s ∈ tokenScopes (token c))) ∧
  ((∀ recorded c, recorded ∈ requested_scopes →
      tokenCache w !! cacheKey tickets_audience recorded = Some c →
      ¬ (∀ s, s ∈ scopes → s ∈ recorded)) →
     exchangeLog w' =
       exchangeLog w ++ [(exchangeArgs cfg tickets_audience scopes, r)]) ∧
  (tokenCache w !! cacheKey tickets_audience scopes = None →
     exchangeLog w' =
       exchangeLog w ++ [(exchangeArgs cfg tickets_audience scopes, r)]) ∧
  reachable w'.
Proof.
  intros Hw Hsc Hr.
  assert (reachable w') as Hw'.
  { replace w' with (getAccessTokenWith cfg tickets_audience scopes w).2
      by (rewrite Hr; reflexivity).
    apply request; assumption. }
  destruct (runs_invariants _ Hw) as (Hinv & Hlog & _).
  pose proof (plain_requested _ Hsc) as Hplain.
  revert Hr. unfold HelpdeskAgent.getAccessTokenWith.
  destruct (lookupCache (cacheKey tickets_audience scopes) w)
    as [tok|cache] eqn:Hl.
  - intros [= <- <-].
    destruct (TokenCache.lookupCache_inl parseSegment _ _ _ Hl)
      as (_ & c & Hc & <-).
    destruct (Hinv _ _ Hc) as (args & Hin & Hpl & Hkey).
    apply TokenCache.cacheKey_inj in Hkey as [Haud Hargs];
      auto using TokenCache.sort_plain.
    destruct (Hlog _ _ Hin) as (now & Hnow).
    assert (∀ s, s ∈ scopes → s ∈ HelpdeskAgent.scopes args) as Hcov
      by (intros s Hs; rewrite Hargs; apply TokenCache.sort_elem_of, Hs).
    split; [|split; [|split; [|exact Hw']]].
    + intros _. exists c, args, now.
      repeat match goal with |- _ ∧ _ => split end; auto.
      intros Hgr s Hs. exact (Hgr args now (token c) Hnow s (Hcov s Hs)).
    + intros Hnone. exfalso. exact (Hnone scopes c Hsc Hc (λ s Hs, Hs)).
    + intros Hnone. rewrite Hnone in Hc. discriminate.
  - destruct (exchangeForAccessToken _ _) as [[e|tok] t]; intros [= <- <-];
      cbn [exchangeLog];
      (split; [intros E; exfalso; exact (TokenCache.app_singleton_neq _ _ E)|]);
      auto.
Qed.
End facts.

Lemma granting_exchange_grants :
  grants_requested scoped_parseSegment granting_exchange.
Proof.
  intros args now tok. unfold granting_exchange.
  repeat case_bool_decide; cbn [fst]; intros [= <-] s Hs;
    match goal with H : scopes args = _ |- _ => rewrite H in Hs end;
    exact Hs.
Defined.

Lemma served_token_covers_request_witness :
  let w1 :=
    (getAccessTokenWith scoped_parseSegment granting_exchange demo_config
       tickets_audience ["tickets.read"]
       {| clock := 0; tokenCache := ∅; exchangeLog := [] |}).2 in
  ∃ tok,
    getAccessTokenWith scoped_parseSegment granting_exchange demo_config
      tickets_audience ["tickets.read"] w1 = (inr tok, w1) ∧
    length (exchangeLog w1) = 1%nat ∧
    "tickets.read" ∈ tokenScopes scoped_parseSegment tok.
Proof.
  intros w1.
  assert (["tickets.read"] ∈ requested_scopes) as Hsc by (left; reflexivity).
  destruct (served_token_covers_request scoped_parseSegment granting_exchange
              demo_config ["tickets.read"] w1 (inr "hdr.r.sig") w1
              (request _ _ _ demo_config _ (start _ _ 0) Hsc) Hsc eq_refl)
    as [Hhit _].
  destruct (Hhit eq_refl) as (c & args & now & Hr & _ & _ & _ & _ & _ & Hgr).
  exists (token c). split; [rewrite <- Hr; reflexivity|].
  split; [reflexivity|].
  apply (Hgr granting_exchange_grants). left.
Defined.

Section hit_rule.
Variable parseSegment : string → option Jose.JWTPayload.
Variable exchangeForAccessToken : ExchangeArgs → Z → (exn + string) * Z.

Local Notation "'getAccessTokenWith'" :=
  (HelpdeskAgent.getAccessTokenWith parseSegment exchangeForAccessToken).
Local Notation "'serveable'" := (CacheRuns.serveable parseSegment).
Local Notation "'reachable'" :=
  (CacheRuns.reachable parseSegment exchangeForAccessToken).

Lemma serveable_usable key w :
  reachable w → 0 ≤ clock w →
  serveable key w ↔ HelpdeskAgent.usable parseSegment key w.
Proof.
  intros Hw H0. destruct (runs_invariants _ _ _ Hw) as (_ & _ & Hm). split.
  - intros (c & e & Hc & Hlt & He & Hge). exists c, e.
    assert (e ≠ 0) as He0 by lia.
    pose proof (Hm _ _ _ Hc He He0).
    repeat match goal with |- _ ∧ _ => split end; auto; lia.
  - intros (c & e & Hc & Hlt & He & _ & Hgt). exists c, e.
    repeat match goal with |- _ ∧ _ => split end; auto; lia.
Qed.

(** X23: in every state the process can reach, at any time from the epoch
    on, the cached token is returned - with no exchange and the state
    unchanged - if and only if an entry exists under the key, the current
    time is before its [expires], and the expiry decoded from the stored
    token is at least 30 seconds ahead; in every other case exactly one
    exchange is made and its outcome is what the call returns. *)
Theorem reachable_hit_rule cfg scopes w :
  let key := cacheKey tickets_audience scopes in
  let args := exchangeArgs cfg tickets_audience scopes in
  let outcome := (exchangeForAccessToken args (clock w)).1 in
  reachable w → 0 ≤ clock w →
  (serveable key w ↔
     ∃ c, tokenCache w !! key = Some c ∧
          getAccessTokenWith cfg tickets_audience scopes w
            = (inr (token c), w)) ∧
  (¬ serveable key w →
     ∃ w', getAccessTokenWith cfg tickets_audience scopes w = (outcome, w') ∧
           exchangeLog w' = exchangeLog w ++ [(args, outcome)]).
Proof.
  intros key args outcome Hw H0.
  pose proof (serveable_usable key w Hw H0) as Hsu.
  destruct (TokenCache.cache_hit_rule parseSegment exchangeForAccessToken
              cfg tickets_audience scopes w) as [Hhit Hmiss].
  split.
  - rewrite Hsu. exact Hhit.
  - intros Hn. destruct Hmiss as (w' & Hr & Hlog & _).
    { intros Hu. apply Hn, Hsu, Hu. }
    exists w'. split; [exact Hr|exact Hlog].
Qed.
End hit_rule.

Lemma reachable_hit_rule_witness :
  let w0 := {| clock := 0; tokenCache := ∅; exchangeLog := [] |} in
  let w1 :=
    (getAccessTokenWith demo_parseSegment demo_exchange demo_config
       tickets_audience ["tickets.read"] w0).2 in
  clock w1 = 5 ∧
  getAccessTokenWith demo_parseSegment demo_exchange demo_config
    tickets_audience ["tickets.read"] w1 = (inr "hdr.exp900.sig", w1).
Proof.
  intros w0 w1. split; [reflexivity|].
  assert (["tickets.read"] ∈ requested_scopes) as Hsc by (left; reflexivity).
  assert (0 ≤ clock w1) as H0 by (vm_compute; discriminate).
  destruct (reachable_hit_rule demo_parseSegment demo_exchange demo_config
              ["tickets.read"] w1
              (request _ _ _ demo_config _ (start _ _ 0) Hsc) H0)
    as [[Hhit _] _].
  destruct Hhit as (c & Hc & Hr).
  - exists {| token := "hdr.exp900.sig"; expires := 240005 |}, 900000.
    repeat match goal with |- _ ∧ _ => split end;
      first [reflexivity | vm_compute; discriminate].
  - rewrite Hr. injection Hc as <-. reflexivity.
Defined.

(** C5: a cached entry that fails the [expires] check is not evicted.
    The token cached by a first call (at time 0, until 240005) is still
    in the cache after a call made at time 300000, past its [expires],
    whose exchange the Token Service does not answer: that call makes a
    fresh exchange, returns its error, and leaves the stale entry where
    it was.  An entry that passes the [expires] check and fails the check
    of the token's own expiry is removed by the sibling branch in the
    same situation. *)
Theorem stale_entry_not_evicted :
  let key := cacheKey tickets_audience ["tickets.read"] in
  let get exchange :=
    getAccessTokenWith demo_parseSegment exchange demo_config
      tickets_audience ["tickets.read"] in
  let at_time t w :=
    {| clock := t; tokenCache := tokenCache w;
       exchangeLog := exchangeLog w |} in
  let w0 := {| clock := 0; tokenCache := ∅; exchangeLog := [] |} in
  let w1 := (get flaky_exchange w0).2 in
  let w2 := at_time 300000 w1 in
  let w3 := (get flaky_exchange w2).2 in
  let v1 := (get flaky_opaque_exchange w0).2 in
  let v2 := at_time 1000 v1 in
  let v3 := (get flaky_opaque_exchange v2).2 in
  let stale := {| token := "hdr.exp900.sig"; expires := 240005 |} in
  reachable demo_parseSegment flaky_exchange w2 ∧
  tokenCache w2 !! key = Some stale ∧
  expires stale ≤ clock w2 ∧
  (get flaky_exchange w2).1 = inl (Error "fetch failed") ∧
  exchangeLog w3 =
    exchangeLog w2 ++
      [(exchangeArgs demo_config tickets_audience ["tickets.read"],
        inl (Error "fetch failed"))] ∧
  tokenCache w3 !! key = Some stale ∧
  reachable demo_parseSegment flaky_opaque_exchange v2 ∧
  tokenCache v2 !! key
    = Some {| token := "opaque-token"; expires := 240005 |} ∧
  clock v2 < 240005 ∧
  (get flaky_opaque_exchange v2).1 = inl (Error "fetch failed") ∧
  tokenCache v3 !! key = None.
Proof.
  assert (["tickets.read"] ∈ requested_scopes) as Hsc by (left; reflexivity).
  cbv zeta.
  repeat match goal with |- _ ∧ _ => split end;
    try reflexivity; try (vm_compute; congruence).
  - apply (tick _ _ _ 300000).
    apply (request _ _ _ demo_config _ (start _ _ 0) Hsc).
  - apply (tick _ _ _ 1000).
    apply (request _ _ _ demo_config _ (start _ _ 0) Hsc).
Qed.

End CachePolicy.
